(** * event-system.js: the event bus and the TTL cache

    A shallow embedding of [EventBus] and [CacheManager] of
    [src/event-system.js], with the properties of the specification stated
    and proved (or refuted) over it.

    Modelling conventions.
    - The closure-private state of each module ([listeners]; [cache],
      [stats]) becomes a record that every operation receives and returns.
    - A JavaScript [Set] is the list of its slots, as in ECMAScript's
      [[SetData]]: [add] appends, [delete] empties the slot in place and
      [forEach] walks the slots by index.  This is what makes removal during
      a dispatch observable.
    - Function objects are compared by identity: a client function is
      [UserFn id]; every call of [once] creates a new wrapper [OnceFn fid ..].
    - What a client function does when it is invoked is given by a table
      [body] from its identity and arguments to a list of actions: it may
      throw, call [EventBus.off], or invoke a remover that [EventBus.on]
      returned.  Client functions that subscribe, emit or use the cache
      from inside a dispatch are outside the model.
    - [Date.now()] is the field [clock]; [setTimeout] registers a pending
      timer that the environment may run at any instant from its due time
      on; the due time is the one of the host (Node.js), which takes a
      delay above 2^31-1 ms as 1 ms; numbers are integers (millisecond
      counts).
    - [console.log] output is dropped; [console.error] of [emit] is kept.
    - Fields marked "observation" are not program state: they record what
      was emitted and which functions were invoked with which arguments.
    - The counters are natural numbers without a bound.

    The definitions come first: values, the bus, the cache, executions and
    the vocabulary of the statements.  The proofs follow: the slots of a
    set, the dispatch loop, subscriptions, the invariant that ties timers
    to entries, and the statements about reading the cache. *)

From Stdlib Require Import Ascii String.
From stdpp Require Import base option list gmap strings.

Open Scope Z_scope.

(** ** JavaScript values *)

Inductive Callback : Type :=
| UserFn (id : nat)
| OnceFn (fid : nat) (evento : string) (callback : Callback).

Inductive Value : Type :=
| VUndefined
| VNull
| VBool (b : bool)
| VNum (n : Z)
| VStr (s : string)
| VObj (ref : nat)
| VFun (f : Callback).

Inductive JSType : Type :=
| TUndefined | TObject | TBoolean | TNumber | TString | TFunction.

Definition typeof (v : Value) : JSType :=
  match v with
  | VUndefined => TUndefined
  | VNull => TObject
  | VBool _ => TBoolean
  | VNum _ => TNumber
  | VStr _ => TString
  | VObj _ => TObject
  | VFun _ => TFunction
  end.

Inductive Error : Type :=
| ErrNombreEvento      (* "El nombre del evento debe ser un string no vacío" *)
| ErrCallback          (* "El callback debe ser una función" *)
| ErrNombreEventoEmit  (* "El nombre del evento debe ser un string" *)
| ErrClave             (* "La clave debe ser un string no vacío" *)
| TypeError            (* a method called on [undefined] *)
| Thrown.              (* whatever a client function throws *)

Inductive Completion (A : Type) : Type :=
| Normal (a : A)
| Throw (e : Error).
Arguments Normal {A} a.
Arguments Throw {A} e.

Global Instance Callback_eq_dec : EqDecision Callback.
Proof. solve_decision. Defined.
Global Instance Value_eq_dec : EqDecision Value.
Proof. solve_decision. Defined.
Global Instance Error_eq_dec : EqDecision Error.
Proof. solve_decision. Defined.

(** ** Strings: [String.prototype.trim]

    A string is its sequence of code units below 256; the white space and
    line terminators of ECMAScript in that range are TAB, LF, VT, FF, CR,
    SP and NBSP. *)

Definition is_white_space (c : ascii) : bool :=
  let n := nat_of_ascii c in
  bool_decide (n = 9 ∨ n = 10 ∨ n = 11 ∨ n = 12 ∨ n = 13 ∨ n = 32 ∨ n = 160)%nat.

Fixpoint trim_start (s : list ascii) : list ascii :=
  match s with
  | [] => []
  | c :: s' => if is_white_space c then trim_start s' else s
  end.

Definition trim (s : string) : string :=
  string_of_list_ascii
    (rev (trim_start (rev (trim_start (list_ascii_of_string s))))).

(** [s.trim().length === 0] *)
Definition blank (s : string) : bool :=
  bool_decide (String.length (trim s) = 0%nat).

(** ** JavaScript [Set] of function objects *)

Module JSSet.

(** The slots; [None] is a slot emptied by [delete]. *)
Abbreviation t := (list (option Callback)).

Definition empty : t := [].

(** The members, in insertion order. *)
Definition values (s : t) : list Callback := omap id s.

Definition has (s : t) (cb : Callback) : bool :=
  bool_decide (Some cb ∈ s).

Definition add (s : t) (cb : Callback) : t :=
  if has s cb then s else s ++ [Some cb].

(** [delete] empties the first slot that holds [cb]. *)
Fixpoint delete (s : t) (cb : Callback) : t :=
  match s with
  | [] => []
  | Some x :: s' =>
      if decide (x = cb) then None :: s' else Some x :: delete s' cb
  | None :: s' => None :: delete s' cb
  end.

Definition size (s : t) : nat := length (values s).

(** What holds of every [Set]: a member occupies one slot. *)
Definition wf (s : t) : Prop := NoDup (values s).

End JSSet.

(** ** What client functions do *)

Inductive Action : Type :=
| AThrow                               (* throw new Error(..) *)
| AOff (evento : string) (id : nat)    (* EventBus.off(evento, f_id) *)
| ARemover (evento : string) (id : nat).
                       (* call the remover that on(evento, f_id) returned *)

(** ** EventBus *)

Module EventBus.

Record State : Type := mkState {
  listeners : gmap string (list (option Callback));
  next_fn : nat;                 (* identity of the next function object *)
  console_error : list (string * Error);
  (* observations *)
  emitted : list (string * list Value);
  dispatched : list (Callback * list Value);
  calls : list (nat * list Value);
}.

Definition initial : State := mkState ∅ 0 [] [] [] [].

Definition with_listeners (l : gmap string (list (option Callback)))
    (b : State) : State :=
  mkState l (next_fn b) (console_error b) (emitted b) (dispatched b) (calls b).

Definition fresh_fn (b : State) : State :=
  mkState (listeners b) (S (next_fn b)) (console_error b) (emitted b)
    (dispatched b) (calls b).

Definition log_error (evento : string) (e : Error) (b : State) : State :=
  mkState (listeners b) (next_fn b) (console_error b ++ [(evento, e)])
    (emitted b) (dispatched b) (calls b).

Definition note_emit (evento : string) (datos : list Value) (b : State)
    : State :=
  mkState (listeners b) (next_fn b) (console_error b)
    (emitted b ++ [(evento, datos)]) (dispatched b) (calls b).

Definition note_dispatch (cb : Callback) (datos : list Value) (b : State)
    : State :=
  mkState (listeners b) (next_fn b) (console_error b) (emitted b)
    (dispatched b ++ [(cb, datos)]) (calls b).

Definition note_call (id : nat) (datos : list Value) (b : State) : State :=
  mkState (listeners b) (next_fn b) (console_error b) (emitted b)
    (dispatched b) (calls b ++ [(id, datos)]).

(** [validarTipo]: throws, or lets the caller go on with a string and a
    function. *)
Definition validarTipo (evento callback : Value)
    : Completion (string * Callback) :=
  match evento with
  | VStr ev =>
      if blank ev then Throw ErrNombreEvento
      else match callback with
           | VFun cb => Normal (ev, cb)
           | _ => Throw ErrCallback
           end
  | _ => Throw ErrNombreEvento
  end.

(** The closure that [on] returns: it captures [evento] and [callback]. *)
Record Remover : Type := mkRemover {
  rm_evento : string;
  rm_callback : Callback;
}.

(** [function () { listeners.get(evento).delete(callback); }] *)
Definition remover (r : Remover) (b : State) : Completion unit * State :=
  match listeners b !! rm_evento r with
  | None => (Throw TypeError, b)
  | Some s =>
      (Normal (),
       with_listeners
         (<[rm_evento r := JSSet.delete s (rm_callback r)]> (listeners b)) b)
  end.

Definition on (evento callback : Value) (b : State)
    : Completion Remover * State :=
  match validarTipo evento callback with
  | Throw e => (Throw e, b)
  | Normal (ev, cb) =>
      let l1 :=
        match listeners b !! ev with
        | Some _ => listeners b
        | None => <[ev := JSSet.empty]> (listeners b)
        end in
      let l2 :=
        match l1 !! ev with
        | Some s => <[ev := JSSet.add s cb]> l1
        | None => l1
        end in
      (Normal (mkRemover ev cb), with_listeners l2 b)
  end.

Definition off (evento callback : Value) (b : State) : State :=
  match evento, callback with
  | VStr ev, VFun cb =>
      match listeners b !! ev with
      | Some s => with_listeners (<[ev := JSSet.delete s cb]> (listeners b)) b
      | None => b
      end
  | _, _ => b
  end.

Section Dispatch.

(** The body of the client function [id] when called with [datos]. *)
Variable body : nat → list Value → list Action.

Definition run_action (a : Action) (b : State) : Completion unit * State :=
  match a with
  | AThrow => (Throw Thrown, b)
  | AOff ev id => (Normal (), off (VStr ev) (VFun (UserFn id)) b)
  | ARemover ev id => remover (mkRemover ev (UserFn id)) b
  end.

Fixpoint run_actions (acts : list Action) (b : State)
    : Completion unit * State :=
  match acts with
  | [] => (Normal (), b)
  | a :: rest =>
      match run_action a b with
      | (Normal _, b1) => run_actions rest b1
      | (Throw e, b1) => (Throw e, b1)
      end
  end.

(** [cb(...datos)].  The wrapper that [once] builds is
    [function (...datos) { callback(...datos); remover(); }]. *)
Fixpoint invoke (cb : Callback) (datos : list Value) (b : State)
    : Completion unit * State :=
  match cb with
  | UserFn id => run_actions (body id datos) (note_call id datos b)
  | OnceFn _ ev callback =>
      match invoke callback datos b with
      | (Normal _, b1) => remover (mkRemover ev cb) b1
      | (Throw e, b1) => (Throw e, b1)
      end
  end.

(** [callbacks.forEach(..)] of [emit], from slot [idx] on, with [n] slots
    left to look at.  The set is read again at every slot, so what a
    subscriber deletes is seen; no action of the model adds a slot, so the
    number of slots is the one [emit] finds when it starts. *)
Fixpoint forEach (evento : string) (datos : list Value) (n idx : nat)
    (b : State) : State :=
  match n with
  | O => b
  | S n' =>
      match listeners b !! evento ≫= (.!! idx) with
      | Some (Some cb) =>
          let b2 :=
            match invoke cb datos (note_dispatch cb datos b) with
            | (Normal _, b1) => b1
            | (Throw e, b1) => log_error evento e b1
            end in
          forEach evento datos n' (S idx) b2
      | _ => forEach evento datos n' (S idx) b
      end
  end.

Definition emit (evento : Value) (datos : list Value) (b : State)
    : Completion unit * State :=
  match evento with
  | VStr ev =>
      let b0 := note_emit ev datos b in
      match listeners b0 !! ev with
      | Some callbacks =>
          (Normal (), forEach ev datos (length callbacks) 0 b0)
      | None => (Normal (), b0)
      end
  | _ => (Throw ErrNombreEventoEmit, b)
  end.

Definition once (evento callback : Value) (b : State)
    : Completion unit * State :=
  match validarTipo evento callback with
  | Throw e => (Throw e, b)
  | Normal (ev, cb) =>
      let wrapper := OnceFn (next_fn b) ev cb in
      match on evento (VFun wrapper) (fresh_fn b) with
      | (Normal _, b1) => (Normal (), b1)
      | (Throw e, b1) => (Throw e, b1)
      end
  end.

End Dispatch.

(** [info[evento] = callbacks.size] on the plain object [info]: for the
    key ["__proto__"] the assignment reaches the setter of
    [Object.prototype], which ignores a number, so that [info] never has
    this key. *)
Definition debug (b : State) : gmap string nat :=
  delete "__proto__" (JSSet.size <$> listeners b).

Definition clear (b : State) : State := with_listeners ∅ b.

End EventBus.

(** ** Timers and the clock *)

(** A pending [setTimeout]: the instant from which it may run and the key
    its closure deletes. *)
Record Timer : Type := mkTimer {
  due : Z;
  clave_of : string;
}.

(** ** CacheManager *)

Module CacheManager.

Record Entrada : Type := mkEntrada {
  valor : Value;
  expiracion : Z;
  timeoutId : option nat;
}.

Record Stats : Type := mkStats {
  hits : nat;
  misses : nat;
}.

Record State : Type := mkState {
  cache : gmap string Entrada;
  stats : Stats;
  timers : gmap nat Timer;       (* the pending timers of the event loop *)
  next_timer : nat;              (* identity of the next timer *)
  clock : Z;                     (* Date.now() *)
}.

(** The bus and the cache together. *)
Record World : Type := mkWorld {
  bus : EventBus.State;
  store : State;
}.

Definition initial (now : Z) : World :=
  mkWorld EventBus.initial (mkState ∅ (mkStats 0 0) ∅ 0 now).

Definition with_cache (c : gmap string Entrada) (st : State) : State :=
  mkState c (stats st) (timers st) (next_timer st) (clock st).

Definition with_stats (s : Stats) (st : State) : State :=
  mkState (cache st) s (timers st) (next_timer st) (clock st).

Definition clearTimeout (tid : nat) (st : State) : State :=
  mkState (cache st) (stats st) (delete tid (timers st)) (next_timer st)
    (clock st).

(** The delay that the host's [setTimeout] uses: a delay above 2^31-1 or
    below 1 is taken as 1. *)
Definition max_delay : Z := 2147483647.

Definition host_delay (ttl : Z) : Z :=
  if bool_decide (1 ≤ ttl ≤ max_delay) then ttl else 1.

(** [setTimeout(() => cache.delete(clave), ttl)] *)
Definition setTimeout (clave : string) (ttl : Z) (st : State) : nat * State :=
  (next_timer st,
   mkState (cache st) (stats st)
     (<[next_timer st := mkTimer (clock st + host_delay ttl) clave]>
        (timers st))
     (S (next_timer st)) (clock st)).

Definition count_hit (st : State) : State :=
  with_stats (mkStats (S (hits (stats st))) (misses (stats st))) st.

Definition count_miss (st : State) : State :=
  with_stats (mkStats (hits (stats st)) (S (misses (stats st)))) st.

(** [if (entrada.timeoutId)] holds for every timer handle: only [null] is
    falsy. *)
Definition limpiarEntrada (clave : string) (st : State) : State :=
  match cache st !! clave with
  | Some entrada =>
      let st1 :=
        match timeoutId entrada with
        | Some tid => clearTimeout tid st
        | None => st
        end in
      with_cache (delete clave (cache st1)) st1
  | None => st
  end.

(** [if (typeof ttl !== "number" || ttl < 0) ttl = 0] *)
Definition normalizar_ttl (ttl : Value) : Z :=
  match ttl with
  | VNum n => if bool_decide (n < 0) then 0 else n
  | _ => 0
  end.

Definition set (clave valor ttl : Value) (w : World)
    : Completion unit * World :=
  match clave with
  | VStr k =>
      if blank k then (Throw ErrClave, w)
      else
        let ttl := normalizar_ttl ttl in
        let st1 := limpiarEntrada k (store w) in
        let '(timeoutId, expiracion, st2) :=
          if bool_decide (ttl > 0) then
            let expiracion := clock st1 + ttl in
            let '(tid, st2) := setTimeout k ttl st1 in
            (Some tid, expiracion, st2)
          else (None, 0, st1) in
        (Normal (),
         mkWorld (bus w)
           (with_cache
              (<[k := mkEntrada valor expiracion timeoutId]> (cache st2))
              st2))
  | _ => (Throw ErrClave, w)
  end.

(** [cache.get(clave)]: only strings are ever stored as keys. *)
Definition lookup_clave (clave : Value) (st : State) : option Entrada :=
  match clave with
  | VStr k => cache st !! k
  | _ => None
  end.

Section Dispatch.

Variable body : nat → list Value → list Action.

(** [eventBus.emit(..); return r;] *)
Definition emit_and_return (evento : string) (datos : list Value)
    (r : Value) (st : State) (b : EventBus.State) : Completion Value * World :=
  match EventBus.emit body (VStr evento) datos b with
  | (Normal _, b1) => (Normal r, mkWorld b1 st)
  | (Throw e, b1) => (Throw e, mkWorld b1 st)
  end.

Definition get (clave : Value) (w : World) : Completion Value * World :=
  match lookup_clave clave (store w) with
  | None =>
      emit_and_return "cache:miss" [clave] VNull
        (count_miss (store w)) (bus w)
  | Some entrada =>
      let ahora := clock (store w) in
      if bool_decide (expiracion entrada > 0)
         && bool_decide (expiracion entrada < ahora)
      then
        let st1 :=
          match clave with
          | VStr k => limpiarEntrada k (store w)
          | _ => store w
          end in
        emit_and_return "cache:miss" [clave] VNull (count_miss st1) (bus w)
      else
        emit_and_return "cache:hit" [clave; valor entrada] (valor entrada)
          (count_hit (store w)) (bus w)
  end.

End Dispatch.

Definition del (clave : Value) (w : World) : bool * World :=
  match clave with
  | VStr k =>
      match cache (store w) !! k with
      | Some _ => (true, mkWorld (bus w) (limpiarEntrada k (store w)))
      | None => (false, w)
      end
  | _ => (false, w)
  end.

Record DebugInfo : Type := mkDebugInfo {
  size : nat;
  debug_stats : Stats;
  keys : list string;
}.

(** The order of [keys] is the insertion order in JavaScript; here it is
    the order of the map's enumeration. *)
Definition debug (w : World) : DebugInfo :=
  let ks := (map_to_list (cache (store w))).*1 in
  mkDebugInfo (length ks) (stats (store w)) ks.

Definition clear (w : World) : World :=
  let ks := (map_to_list (cache (store w))).*1 in
  let st1 := foldl (λ st k, limpiarEntrada k st) (store w) ks in
  mkWorld (bus w) (with_stats (mkStats 0 0) (with_cache ∅ st1)).

(** *** The environment: time passes, a due timer runs *)

Definition tick (d : nat) (w : World) : World :=
  mkWorld (bus w)
    (mkState (cache (store w)) (stats (store w)) (timers (store w))
       (next_timer (store w)) (clock (store w) + Z.of_nat d)).

(** The callback of [setTimeout]: [cache.delete(clave)]. *)
Definition fire (tid : nat) (w : World) : World :=
  match timers (store w) !! tid with
  | Some tm =>
      if bool_decide (due tm ≤ clock (store w)) then
        let st1 := clearTimeout tid (store w) in
        mkWorld (bus w) (with_cache (delete (clave_of tm) (cache st1)) st1)
      else w
  | None => w
  end.

End CacheManager.

(** ** Executions *)

(** What can happen to the system: a call of the public API by a client, or
    a move of the environment (time passes, a due timer runs). *)
Inductive Op : Type :=
| OSet (clave valor ttl : Value)
| OGet (clave : Value)
| ODel (clave : Value)
| OClear
| OTick (d : nat)
| OFire (tid : nat)
| OOn (evento callback : Value)
| OOnce (evento callback : Value)
| OOff (evento callback : Value)
| ORemover (r : EventBus.Remover)
| OEmit (evento : Value) (datos : list Value)
| OBusClear.

Import CacheManager.

Section Executions.

Variable body : nat → list Value → list Action.

Definition on_bus (f : EventBus.State → EventBus.State) (w : World) : World :=
  mkWorld (f (bus w)) (store w).

Definition step (w : World) (o : Op) : World :=
  match o with
  | OSet clave valor ttl => (set clave valor ttl w).2
  | OGet clave => (get body clave w).2
  | ODel clave => (del clave w).2
  | OClear => clear w
  | OTick d => tick d w
  | OFire tid => fire tid w
  | OOn evento callback => on_bus (λ b, (EventBus.on evento callback b).2) w
  | OOnce evento callback => on_bus (λ b, (EventBus.once evento callback b).2) w
  | OOff evento callback => on_bus (EventBus.off evento callback) w
  | ORemover r => on_bus (λ b, (EventBus.remover r b).2) w
  | OEmit evento datos => on_bus (λ b, (EventBus.emit body evento datos b).2) w
  | OBusClear => on_bus EventBus.clear w
  end.

Definition run (ops : list Op) (w : World) : World := foldl step w ops.

(** The worlds of an execution that starts at the instant [t0]. *)
Definition reachable (w : World) : Prop :=
  ∃ t0 ops, 0 ≤ t0 ∧ w = run ops (initial t0).

End Executions.

(** An operation that neither replaces nor deletes the entry of [k]. *)
Definition keeps (k : string) (o : Op) : Prop :=
  match o with
  | OSet (VStr k') _ _ => k' ≠ k
  | ODel (VStr k') => k' ≠ k
  | OClear => False
  | _ => True
  end.

(** ** Predicates of the statements *)

(** The due time [d] of the timer of an entry that expires at [x]: the
    expiry itself, or earlier when the TTL was beyond what the host takes
    (then [d] is 1 ms after the [set], and [x - d + 1] is the TTL). *)
Definition due_for (d x : Z) : Prop :=
  d = x ∨ max_delay < x - d + 1.

(** The timers of the event loop and the entries of the cache agree: a
    pending timer belongs to the present entry of its key, and an entry
    that names a timer has it pending for its key. *)
Record timers_owned (st : State) : Prop := mkTimersOwned {
  clock_nonneg : 0 ≤ clock st;
  timer_has_entry : ∀ tid tm,
    timers st !! tid = Some tm →
    ∃ v x,
      cache st !! clave_of tm = Some (mkEntrada v x (Some tid)) ∧
      due_for (due tm) x;
  timer_fresh : ∀ tid tm, timers st !! tid = Some tm → (tid < next_timer st)%nat;
  entry_has_timer : ∀ k e,
    cache st !! k = Some e →
    match timeoutId e with
    | Some tid =>
        (∃ d, timers st !! tid = Some (mkTimer d k)) ∧ 0 < expiracion e
    | None => expiracion e = 0
    end;
}.

(** At most one pending timer per key. *)
Definition one_timer_per_key (st : State) : Prop :=
  ∀ t1 t2 tm1 tm2,
    timers st !! t1 = Some tm1 → timers st !! t2 = Some tm2 →
    clave_of tm1 = clave_of tm2 → t1 = t2.

(** The lazy test of [get]. *)
Definition expired (e : Entrada) (ahora : Z) : Prop :=
  expiracion e > 0 ∧ expiracion e < ahora.

(** A number that is not negative: what [set] accepts as a TTL. *)
Definition non_negative_number (ttl : Value) : Prop :=
  ∃ n, ttl = VNum n ∧ 0 ≤ n.

Section Subscribers.

Variable body : nat → list Value → list Action.
Variable evento : string.
Variable datos : list Value.

(** An action that leaves the subscribers of [evento] alone. *)
Definition quiet_action (a : Action) : Prop :=
  match a with
  | AThrow => True
  | AOff ev _ | ARemover ev _ => ev ≠ evento
  end.

(** A function none of whose actions touches the subscribers of [evento]
    (it may throw). *)
Fixpoint quiet (cb : Callback) : Prop :=
  match cb with
  | UserFn id => Forall quiet_action (body id datos)
  | OnceFn _ ev inner => ev ≠ evento ∧ quiet inner
  end.

(** A subscriber of [evento] that, when called with [datos], takes at most
    itself out of the subscribers of [evento] (it may throw). *)
Definition self_contained (cb : Callback) : Prop :=
  match cb with
  | UserFn id =>
      Forall (λ a, quiet_action a ∨ a = AOff evento id ∨ a = ARemover evento id)
        (body id datos)
  | OnceFn _ ev inner => quiet inner
  end.

(** An action that cannot throw while [evento] has a subscriber set. *)
Definition returning_action (a : Action) : Prop :=
  match a with
  | AThrow => False
  | AOff _ _ => True
  | ARemover ev _ => ev = evento
  end.

(** A subscriber of [evento] that takes itself out during its call: the
    wrapper of [once] around a function that returns, or a client function
    that returns after calling [off] on itself or its own remover. *)
Definition removes_itself (cb : Callback) : Prop :=
  match cb with
  | UserFn id =>
      Forall returning_action (body id datos) ∧
      (AOff evento id ∈ body id datos ∨ ARemover evento id ∈ body id datos)
  | OnceFn _ ev (UserFn id) =>
      ev = evento ∧ Forall returning_action (body id datos)
  | OnceFn _ _ (OnceFn _ _ _) => False
  end.

End Subscribers.

(** ** Observations and relations of the statements *)

(** The client function that a call of [cb] ends up running. *)
Fixpoint target (cb : Callback) : nat :=
  match cb with
  | UserFn id => id
  | OnceFn _ _ inner => target inner
  end.

(** [s'] is [s] with some of the slots that held [cb] emptied. *)
Definition emptied_of (cb : Callback) (s s' : list (option Callback)) : Prop :=
  length s' = length s ∧
  ∀ j, s' !! j = s !! j ∨ (s !! j = Some (Some cb) ∧ s' !! j = Some None).

(** [s] is [s0] with some of the slots before [idx] emptied. *)
Definition emptied_before (idx : nat) (s0 s : list (option Callback)) : Prop :=
  length s = length s0 ∧
  ∀ j, s !! j = s0 !! j ∨ ((j < idx)%nat ∧ s !! j = Some None).

(** What was dispatched, and which client functions ran, from [b] to [b']. *)
Definition dispatched_since (b b' : EventBus.State)
    : list (Callback * list Value) :=
  drop (length (EventBus.dispatched b)) (EventBus.dispatched b').

Definition calls_since (b b' : EventBus.State)
    : list (nat * list Value) :=
  drop (length (EventBus.calls b)) (EventBus.calls b').

Definition times_dispatched (cb : Callback)
    (l : list (Callback * list Value)) : nat :=
  length (filter (λ d, d.1 = cb) l).

(** The subscribers of [evento]. *)
Definition subscribers (evento : string) (b : EventBus.State)
    : list Callback :=
  match EventBus.listeners b !! evento with
  | Some s => JSSet.values s
  | None => []
  end.

(** The entry [e] of [k], whose timer (if it has one) is due at [d], is
    still there with that timer, or it was reaped: by a [get] after its
    expiry, or by its timer from [d] on. *)
Definition stays_or_reaped (k : string) (e : Entrada) (d : Z) (st : State)
    : Prop :=
  (cache st !! k = Some e ∧
   ∀ tid, timeoutId e = Some tid → timers st !! tid = Some (mkTimer d k)) ∨
  (cache st !! k = None ∧ 0 < expiracion e ∧
   (expiracion e < clock st ∨ d ≤ clock st)).

(** What a [get] that finds a live entry does: a hit. *)
Definition is_hit (v : Value) (clave : Value) (w : World)
    (r : Completion Value * World) : Prop :=
  r.1 = Normal v ∧
  hits (stats (store r.2)) = S (hits (stats (store w))) ∧
  misses (stats (store r.2)) = misses (stats (store w)) ∧
  EventBus.emitted (bus r.2) =
    EventBus.emitted (bus w) ++ [("cache:hit"%string, [clave; v])].

(** What any other [get] does: a miss. *)
Definition is_miss (clave : Value) (w : World)
    (r : Completion Value * World) : Prop :=
  r.1 = Normal VNull ∧
  hits (stats (store r.2)) = hits (stats (store w)) ∧
  misses (stats (store r.2)) = S (misses (stats (store w))) ∧
  EventBus.emitted (bus r.2) =
    EventBus.emitted (bus w) ++ [("cache:miss"%string, [clave])].

(** A key that [set] accepts. *)
Definition clave_valida (clave : Value) : Prop :=
  match clave with
  | VStr k => blank k = false
  | _ => False
  end.

(** Client functions for the examples: none does anything; or the function
    0 throws; or the function 0 calls its own remover for ["e"]. *)
Definition idle : nat → list Value → list Action := λ _ _, [].

Definition first_throws : nat → list Value → list Action :=
  λ id _, match id with O => [AThrow] | _ => [] end.

Definition first_unsubscribes : nat → list Value → list Action :=
  λ id _, match id with O => [ARemover "e" 0] | _ => [] end.

(** The bus after [once("e", f0); on("e", f1)]. *)
Definition once_then_on : EventBus.State :=
  (EventBus.on (VStr "e") (VFun (UserFn 1))
     (EventBus.once (VStr "e") (VFun (UserFn 0)) EventBus.initial).2).2.

(** The bus after [on("cache:hit", f0); on("cache:hit", f1)], and a cache
    that holds ["k"]. *)
Definition two_hit_listeners : World :=
  (set (VStr "k") (VStr "v") (VNum 0)
     (mkWorld
        (EventBus.on (VStr "cache:hit") (VFun (UserFn 1))
           (EventBus.on (VStr "cache:hit") (VFun (UserFn 0))
              EventBus.initial).2).2
        (store (CacheManager.initial 0)))).2.

(** ** Vocabulary of the further properties *)

(** An event name that [on] and [once] accept. *)
Definition nombre_valido (evento : Value) : Prop :=
  match evento with
  | VStr ev => blank ev = false
  | _ => False
  end.

(** [b'] is [b] with some slots emptied: no event appears or disappears and
    no slot is added or filled. *)
Definition only_empties (b b' : EventBus.State) : Prop :=
  EventBus.next_fn b' = EventBus.next_fn b ∧
  ∀ ev,
    match EventBus.listeners b !! ev, EventBus.listeners b' !! ev with
    | None, None => True
    | Some s, Some s' =>
        length s' = length s ∧ ∀ j, s' !! j = s !! j ∨ s' !! j = Some None
    | _, _ => False
    end.

(** What holds of the registry in every execution: names are not blank, a
    function occupies one slot of a set, and a wrapper of [once] sits under
    the event it was made for and was made before now. *)
Record bus_ok (b : EventBus.State) : Prop := mkBusOk {
  names_not_blank : ∀ ev s,
    EventBus.listeners b !! ev = Some s → blank ev = false;
  sets_wf : ∀ ev s, EventBus.listeners b !! ev = Some s → JSSet.wf s;
  wrappers_known : ∀ ev s fid ev' inner,
    EventBus.listeners b !! ev = Some s →
    OnceFn fid ev' inner ∈ JSSet.values s →
    ev' = ev ∧ (fid < EventBus.next_fn b)%nat;
}.

(** A call that a client can make: the functions it passes to [on] are its
    own, never a wrapper that [once] keeps to itself. *)
Definition client_op (o : Op) : Prop :=
  match o with
  | OOn _ (VFun (OnceFn _ _ _)) => False
  | _ => True
  end.

(** The operations that are calls of [get]. *)
Definition is_get (o : Op) : bool :=
  match o with
  | OGet _ => true
  | _ => false
  end.

(** ** AuthManager

    The closure-private [usuarioActual] and [token], the pending timers of
    [login] and the clock.  The user object has an identity, which is
    what [emit] passes to the subscribers of [auth:login], and properties,
    which whoever holds the object can write: a client function that
    received it, during a later dispatch or between calls.  What a client
    function writes is given by a table [escribe], as [body] gives its
    actions.  [token] keeps the instant of
    ["token_simulado_" + Date.now()], which determines the string.  As
    for the bus and the cache, a client function that calls [login] or
    [logout] from inside a dispatch is outside the model. *)

Module AuthManager.

(** An object as its own enumerable data properties, which is what the
    copy [{...usuarioActual}] takes. *)
Abbreviation Objeto := (gmap string Value).

(** A pending [setTimeout] of [login]: its closure holds the credentials. *)
Record Intento : Type := mkIntento {
  vence : Z;
  con_username : Value;
  con_password : Value;
}.

Record State : Type := mkState {
  usuarioActual : option (nat * Objeto);    (* [None] is [null] *)
  token : option Z;
  pendientes : gmap nat Intento;
  next_intento : nat;                       (* identity of the next timer *)
  next_obj : nat;                           (* identity of the next object *)
  ahora : Z;                                (* Date.now() *)
  (* observation *)
  compartido : bool;       (* a client function received the user object *)
}.

Record World : Type := mkWorld {
  bus : EventBus.State;
  auth : State;
}.

Definition initial (now : Z) : World :=
  mkWorld EventBus.initial (mkState None None ∅ 0 0 now false).

(** ["Credenciales inválidas"], the accented letter being the code unit
    225. *)
Definition credenciales_invalidas : string :=
  "Credenciales inv" +:+ String "225"%char "lidas".

(** [{ id: 1, username, role: "admin" }] *)
Definition nuevo_usuario (username : Value) : Objeto :=
  <["id" := VNum 1]>
    (<["username" := username]> (<["role" := VStr "admin"]> ∅)).

Definition with_usuario (u : option (nat * Objeto)) (c : bool) (st : State)
    : State :=
  mkState u (token st) (pendientes st) (next_intento st) (next_obj st)
    (ahora st) c.

Definition login (username password : Value) (w : World) : World :=
  let st := auth w in
  mkWorld (bus w)
    (mkState (usuarioActual st) (token st)
       (<[next_intento st :=
            mkIntento (ahora st + 1000) username password]> (pendientes st))
       (S (next_intento st)) (next_obj st) (ahora st) (compartido st)).

(** [usuarioActual ? { ...usuarioActual } : null] *)
Definition getUsuarioActual (w : World) : option Objeto :=
  snd <$> usuarioActual (auth w).

Definition isAuthenticated (w : World) : bool :=
  bool_decide (is_Some (usuarioActual (auth w))).

Section Dispatch.

Variable body : nat → list Value → list Action.

(** What the client function [id], called with [datos], leaves of the
    properties of the user object, when it holds that object. *)
Variable escribe : nat → list Value → Objeto → Objeto.

(** The writes of the calls [llamadas], in their order. *)
Definition escrituras (llamadas : list (nat * list Value)) (o : Objeto)
    : Objeto :=
  foldl (λ o c, escribe c.1 c.2 o) o llamadas.

(** The session after an [emit] that took the bus from [b] to [b1].  The
    client functions that ran hold the user object if one of them received
    it before, or if this [emit] hands it to them ([entrega]); then they
    may have written to it. *)
Definition tras_emit (entrega : bool) (b b1 : EventBus.State) (st : State)
    : State :=
  match usuarioActual st with
  | Some (ref, o) =>
      let llamadas := calls_since b b1 in
      if compartido st || (entrega && bool_decide (llamadas ≠ [])) then
        with_usuario (Some (ref, escrituras llamadas o)) true st
      else st
  | None => st
  end.

(** The callback of the timer of [login], run by the event loop. *)
Definition resolver (i : nat) (w : World) : Completion unit * World :=
  let st := auth w in
  match pendientes st !! i with
  | Some intento =>
      if bool_decide (vence intento ≤ ahora st) then
        let pend := delete i (pendientes st) in
        if bool_decide (con_username intento = VStr "admin")
           && bool_decide (con_password intento = VStr "123")
        then
          let usuario := nuevo_usuario (con_username intento) in
          let st1 :=
            mkState (Some (next_obj st, usuario)) (Some (ahora st)) pend
              (next_intento st) (S (next_obj st)) (ahora st) false in
          match EventBus.emit body (VStr "auth:login")
                  [VObj (next_obj st)] (bus w) with
          | (r, b1) => (r, mkWorld b1 (tras_emit true (bus w) b1 st1))
          end
        else
          let st1 :=
            mkState (usuarioActual st) (token st) pend (next_intento st)
              (next_obj st) (ahora st) (compartido st) in
          match EventBus.emit body (VStr "auth:error")
                  [VStr credenciales_invalidas] (bus w) with
          | (r, b1) => (r, mkWorld b1 (tras_emit false (bus w) b1 st1))
          end
      else (Normal (), w)
  | None => (Normal (), w)
  end.

Definition logout (w : World) : Completion unit * World :=
  let st := auth w in
  let st1 :=
    mkState None None (pendientes st) (next_intento st) (next_obj st)
      (ahora st) false in
  match EventBus.emit body (VStr "auth:logout") [] (bus w) with
  | (r, b1) => (r, mkWorld b1 st1)
  end.

(** An [emit] on the shared bus by anybody else. *)
Definition emitir (evento : Value) (datos : list Value) (w : World) : World :=
  match EventBus.emit body evento datos (bus w) with
  | (_, b1) => mkWorld b1 (tras_emit false (bus w) b1 (auth w))
  end.

End Dispatch.

(** A client that holds the user object writes to it. *)
Definition escribir (f : Objeto → Objeto) (w : World) : World :=
  match usuarioActual (auth w) with
  | Some (ref, o) =>
      if compartido (auth w)
      then mkWorld (bus w) (with_usuario (Some (ref, f o)) true (auth w))
      else w
  | None => w
  end.

Definition pasar (d : nat) (w : World) : World :=
  let st := auth w in
  mkWorld (bus w)
    (mkState (usuarioActual st) (token st) (pendientes st) (next_intento st)
       (next_obj st) (ahora st + Z.of_nat d) (compartido st)).

Definition on_bus (f : EventBus.State → EventBus.State) (w : World) : World :=
  mkWorld (f (bus w)) (auth w).

(** What can happen: a call of the API, a move of the environment, or a
    client at work on the shared bus or on the user object it holds. *)
Inductive Op : Type :=
| OLogin (username password : Value)
| OLogout
| OResolver (i : nat)
| OPasar (d : nat)
| OEmit (evento : Value) (datos : list Value)
| OEscribir (f : Objeto → Objeto)
| OOn (evento callback : Value)
| OOnce (evento callback : Value)
| OOff (evento callback : Value)
| ORemover (r : EventBus.Remover)
| OBusClear.

Section Executions.

Variable body : nat → list Value → list Action.
Variable escribe : nat → list Value → Objeto → Objeto.

Definition step (w : World) (o : Op) : World :=
  match o with
  | OLogin username password => login username password w
  | OLogout => (logout body w).2
  | OResolver i => (resolver body escribe i w).2
  | OPasar d => pasar d w
  | OEmit evento datos => emitir body escribe evento datos w
  | OEscribir f => escribir f w
  | OOn evento callback => on_bus (λ b, (EventBus.on evento callback b).2) w
  | OOnce evento callback => on_bus (λ b, (EventBus.once evento callback b).2) w
  | OOff evento callback => on_bus (EventBus.off evento callback) w
  | ORemover r => on_bus (λ b, (EventBus.remover r b).2) w
  | OBusClear => on_bus EventBus.clear w
  end.

Definition run (ops : list Op) (w : World) : World := foldl step w ops.

End Executions.

End AuthManager.

(** The session in an execution: a token exactly with a user, set no later
    than now, and a user object that no client function has received has
    the properties it was created with. *)
Definition session_ok (w : AuthManager.World) : Prop :=
  (AuthManager.usuarioActual (AuthManager.auth w) = None
     ↔ AuthManager.token (AuthManager.auth w) = None) ∧
  (∀ t, AuthManager.token (AuthManager.auth w) = Some t →
        t ≤ AuthManager.ahora (AuthManager.auth w)) ∧
  (AuthManager.compartido (AuthManager.auth w) = false →
   ∀ u, AuthManager.getUsuarioActual w = Some u →
        u = AuthManager.nuevo_usuario (VStr "admin")).

(** Client functions for the examples: what they write to the user object
    they hold: nothing, or the property [role]. *)
Definition no_escribe
    : nat → list Value → gmap string Value → gmap string Value :=
  λ _ _ o, o.

Definition cambia_role
    : nat → list Value → gmap string Value → gmap string Value :=
  λ _ _ o, <["role" := VStr "root"]> o.

(** The system with the client function 0 subscribed to [auth:login]. *)
Definition con_suscriptor : AuthManager.World :=
  AuthManager.step idle no_escribe (AuthManager.initial 0)
    (AuthManager.OOn (VStr "auth:login") (VFun (UserFn 0))).

Global Instance Action_eq_dec : EqDecision Action.
Proof. solve_decision. Defined.

(** A subscriber that is a client function leaving every subscription of
    [evento] alone and calling no remover: it returns, or it throws. *)
Definition plain (body : nat → list Value → list Action)
    (evento : string) (datos : list Value) (cb : Callback) : Prop :=
  match cb with
  | UserFn id =>
      Forall (λ a, match a with
                   | AThrow => True
                   | AOff ev _ => ev ≠ evento
                   | ARemover _ _ => False
                   end) (body id datos)
  | OnceFn _ _ _ => False
  end.

(** Such a subscriber throws when its body contains a [throw]. *)
Definition throws (body : nat → list Value → list Action)
    (datos : list Value) (cb : Callback) : Prop :=
  AThrow ∈ body (target cb) datos.

Global Instance throws_dec body datos cb : Decision (throws body datos cb).
Proof. unfold throws. apply _. Defined.

(** * Proofs *)

(** ** Sets of function objects *)

Lemma emptied_of_refl cb s : emptied_of cb s s.
Proof. split; [done|]. by left. Qed.

Lemma emptied_of_trans cb s1 s2 s3 :
  emptied_of cb s1 s2 → emptied_of cb s2 s3 → emptied_of cb s1 s3.
Proof.
  intros [Hl1 H1] [Hl2 H2]. split; [congruence|]. intros j.
  destruct (H2 j) as [->|[Hj ->]]; [apply H1|].
  destruct (H1 j) as [Heq|[? Hn]]; [right; by rewrite <- Heq|].
  rewrite Hn in Hj. discriminate.
Qed.

Lemma delete_emptied s cb : emptied_of cb s (JSSet.delete s cb).
Proof.
  induction s as [|[x|] s [IHl IH]]; simpl.
  - apply emptied_of_refl.
  - case_decide as Hx.
    + subst x. split; [done|]. intros [|j]; simpl; [right|left]; done.
    + split; [simpl; congruence|]. intros [|j]; simpl; [by left|apply IH].
  - split; [simpl; congruence|]. intros [|j]; simpl; [by left|apply IH].
Qed.

Lemma delete_at s cb i :
  s !! i = Some (Some cb) → (∀ j, s !! j = Some (Some cb) → j = i) →
  JSSet.delete s cb !! i = Some None.
Proof.
  revert i. induction s as [|[x|] s IH]; intros i Hi Huniq; simpl.
  - done.
  - case_decide as Hx.
    + subst x. by rewrite <- (Huniq 0%nat eq_refl).
    + destruct i as [|i]; simpl in *; [congruence|].
      apply IH; [done|]. intros j Hj. specialize (Huniq (S j) Hj). lia.
  - destruct i as [|i]; simpl in *; [done|].
    apply IH; [done|]. intros j Hj. specialize (Huniq (S j) Hj). lia.
Qed.

Lemma values_lookup s i cb : s !! i = Some (Some cb) → cb ∈ JSSet.values s.
Proof.
  intros Hi. apply list_elem_of_omap. exists (Some cb). split; [|done].
  by apply list_elem_of_lookup_2 in Hi.
Qed.

Lemma values_elem_of s cb : cb ∈ JSSet.values s ↔ Some cb ∈ s.
Proof.
  unfold JSSet.values. rewrite list_elem_of_omap. split.
  - intros ([x|] & Hx & Heq); simpl in *; by simplify_eq.
  - intros H. by exists (Some cb).
Qed.

Lemma wf_unique s i j cb :
  JSSet.wf s → s !! i = Some (Some cb) → s !! j = Some (Some cb) → i = j.
Proof.
  unfold JSSet.wf, JSSet.values.
  revert i j. induction s as [|[x|] s IH]; intros i j Hwf Hi Hj; simpl in *.
  - done.
  - apply NoDup_cons in Hwf as [Hx Hwf].
    destruct i as [|i], j as [|j]; simpl in *; simplify_eq; try done.
    + exfalso. apply Hx. by apply (values_lookup s j).
    + exfalso. apply Hx. by apply (values_lookup s i).
    + f_equal. by apply IH.
  - destruct i as [|i], j as [|j]; simpl in *; simplify_eq.
    f_equal. by apply IH.
Qed.

Lemma slots_emptied_values s s' :
  length s' = length s → (∀ j, s' !! j = s !! j ∨ s' !! j = Some None) →
  JSSet.values s' `sublist_of` JSSet.values s.
Proof.
  unfold JSSet.values. revert s'.
  induction s as [|x s IH]; intros [|x' s'] Hl H; simpl in *; try done.
  assert (JSSet.values s' `sublist_of` JSSet.values s) as Hrest.
  { apply IH; [lia|]. intros j. apply (H (S j)). }
  destruct (H 0%nat) as [Heq|Hx]; simpl in *; simplify_eq.
  - destruct x; simpl; [by apply sublist_skip|done].
  - simpl. destruct x; simpl; [by apply sublist_cons|done].
Qed.

Lemma emptied_values cb s s' :
  emptied_of cb s s' → JSSet.values s' `sublist_of` JSSet.values s.
Proof.
  intros [Hl H]. apply slots_emptied_values; [done|].
  intros j. destruct (H j) as [?|[_ ?]]; auto.
Qed.

Lemma emptied_before_values n s s' :
  emptied_before n s s' → JSSet.values s' `sublist_of` JSSet.values s.
Proof.
  intros [Hl H]. apply slots_emptied_values; [done|].
  intros j. destruct (H j) as [?|[_ ?]]; auto.
Qed.

Lemma wf_emptied cb s s' : emptied_of cb s s' → JSSet.wf s → JSSet.wf s'.
Proof.
  intros He Hwf. unfold JSSet.wf in *.
  eapply sublist_NoDup; [done|by eapply emptied_values].
Qed.

Lemma wf_delete s cb : JSSet.wf s → JSSet.wf (JSSet.delete s cb).
Proof. apply wf_emptied with cb, delete_emptied. Qed.

Lemma values_add s cb :
  JSSet.values (JSSet.add s cb) =
  if decide (cb ∈ JSSet.values s) then JSSet.values s
  else JSSet.values s ++ [cb].
Proof.
  unfold JSSet.add, JSSet.has.
  case_bool_decide as Hin; case_decide as Hv; try done.
  - by apply values_elem_of in Hin.
  - by apply values_elem_of in Hv.
  - unfold JSSet.values. by rewrite omap_app.
Qed.

Lemma wf_add s cb : JSSet.wf s → JSSet.wf (JSSet.add s cb).
Proof.
  unfold JSSet.wf. rewrite values_add. case_decide; [done|].
  intros Hwf. apply NoDup_app. split_and!; [done| |apply NoDup_singleton].
  intros x Hx Hx'. apply list_elem_of_singleton in Hx'. by subst.
Qed.

Lemma values_delete_not_in s cb :
  JSSet.wf s → cb ∉ JSSet.values (JSSet.delete s cb).
Proof.
  unfold JSSet.wf, JSSet.values.
  induction s as [|[x|] s IH]; simpl; intros Hwf.
  - apply not_elem_of_nil.
  - apply NoDup_cons in Hwf as [Hx Hwf]. case_decide as Hxc; simpl.
    + by subst.
    + apply not_elem_of_cons. split; [done|]. by apply IH.
  - by apply IH.
Qed.

(** ** What a call leaves untouched *)

Section Frames.

Import EventBus.

Variable body : nat → list Value → list Action.

Lemma remover_frame r b :
  let b' := (remover r b).2 in
  emitted b' = emitted b ∧ dispatched b' = dispatched b ∧
  calls b' = calls b ∧ console_error b' = console_error b ∧
  next_fn b' = next_fn b.
Proof. unfold remover. by destruct (listeners b !! rm_evento r). Qed.

Lemma off_frame evento callback b :
  let b' := off evento callback b in
  emitted b' = emitted b ∧ dispatched b' = dispatched b ∧
  calls b' = calls b ∧ console_error b' = console_error b ∧
  next_fn b' = next_fn b.
Proof.
  unfold off. destruct evento; try done. destruct callback; try done.
  by destruct (listeners b !! s).
Qed.

Lemma run_actions_frame acts b :
  let b' := (run_actions acts b).2 in
  emitted b' = emitted b ∧ dispatched b' = dispatched b ∧
  calls b' = calls b ∧ console_error b' = console_error b ∧
  next_fn b' = next_fn b.
Proof.
  revert b. induction acts as [|a acts IH]; intros b; [done|].
  destruct a as [|ev id|ev id]; cbn [run_actions run_action].
  - done.
  - destruct (IH (off (VStr ev) (VFun (UserFn id)) b)) as (-> & -> & -> & -> & ->).
    apply off_frame.
  - pose proof (remover_frame (mkRemover ev (UserFn id)) b) as Hr.
    destruct (remover (mkRemover ev (UserFn id)) b) as [[u|e] b1];
      simpl in *; [|done].
    destruct (IH b1) as (-> & -> & -> & -> & ->). done.
Qed.

Lemma invoke_frame cb datos b :
  let b' := (invoke body cb datos b).2 in
  emitted b' = emitted b ∧ dispatched b' = dispatched b ∧
  console_error b' = console_error b ∧ next_fn b' = next_fn b.
Proof.
  induction cb as [id|fid ev inner IH]; simpl.
  - destruct (run_actions_frame (body id datos) (note_call id datos b))
      as (-> & -> & _ & -> & ->). done.
  - destruct (invoke body inner datos b) as [[u|e] b1]; simpl in *; [|done].
    destruct (remover_frame (mkRemover ev (OnceFn fid ev inner)) b1)
      as (-> & -> & _ & -> & ->). done.
Qed.

Lemma invoke_calls cb datos b :
  calls (invoke body cb datos b).2 = calls b ++ [(target cb, datos)].
Proof.
  induction cb as [id|fid ev inner IH]; simpl.
  - by destruct (run_actions_frame (body id datos) (note_call id datos b))
      as (_ & _ & -> & _).
  - destruct (invoke body inner datos b) as [[u|e] b1]; simpl in *; [|done].
    by destruct (remover_frame (mkRemover ev (OnceFn fid ev inner)) b1)
      as (_ & _ & -> & _).
Qed.

Lemma forEach_frame ev datos n idx b :
  let b' := forEach body ev datos n idx b in
  emitted b' = emitted b ∧ next_fn b' = next_fn b.
Proof.
  revert idx b. induction n as [|n IH]; intros idx b; simpl; [done|].
  destruct (listeners b !! ev ≫= (.!! idx)) as [[cb|]|]; try apply IH.
  pose proof (invoke_frame cb datos (note_dispatch cb datos b))
    as (He & _ & _ & Hn).
  destruct (invoke body cb datos (note_dispatch cb datos b)) as [[u|e] b1];
    simpl in *.
  - destruct (IH (S idx) b1) as [-> ->]. done.
  - destruct (IH (S idx) (log_error ev e b1)) as [-> ->]. done.
Qed.

Lemma emit_emitted ev datos b :
  emitted (emit body (VStr ev) datos b).2 = emitted b ++ [(ev, datos)].
Proof.
  unfold emit. destruct (listeners (note_emit ev datos b) !! ev); [|done].
  simpl. by destruct (forEach_frame ev datos (length l) 0 (note_emit ev datos b))
    as [-> _].
Qed.

End Frames.

(** ** What a subscriber does to the subscribers of an event *)

Section Effects.

Import EventBus.

Variable body : nat → list Value → list Action.
Variable evento : string.
Variable datos : list Value.

Lemma remover_other ev cb b :
  ev ≠ evento →
  listeners (remover (mkRemover ev cb) b).2 !! evento = listeners b !! evento.
Proof.
  intros Hne. unfold remover. simpl.
  destruct (listeners b !! ev); [|done]. simpl. by rewrite lookup_insert_ne.
Qed.

Lemma off_other ev cb b :
  ev ≠ evento →
  listeners (off (VStr ev) (VFun cb) b) !! evento = listeners b !! evento.
Proof.
  intros Hne. unfold off.
  destruct (listeners b !! ev); [|done]. simpl. by rewrite lookup_insert_ne.
Qed.

Lemma remover_same cb b s :
  listeners b !! evento = Some s →
  remover (mkRemover evento cb) b =
  (Normal (),
   with_listeners (<[evento := JSSet.delete s cb]> (listeners b)) b).
Proof. intros Hs. unfold remover. simpl. by rewrite Hs. Qed.

Lemma off_same cb b s :
  listeners b !! evento = Some s →
  off (VStr evento) (VFun cb) b =
  with_listeners (<[evento := JSSet.delete s cb]> (listeners b)) b.
Proof. intros Hs. unfold off. by rewrite Hs. Qed.

Lemma quiet_actions acts b :
  Forall (quiet_action evento) acts →
  listeners (run_actions acts b).2 !! evento = listeners b !! evento.
Proof.
  revert b. induction acts as [|a acts IH]; intros b Hq; [done|].
  apply Forall_cons in Hq as [Ha Hq].
  destruct a as [|ev id|ev id]; cbn [run_actions run_action]; simpl in Ha.
  - done.
  - rewrite IH by done. by apply off_other.
  - pose proof (remover_other ev (UserFn id) b Ha) as Hr.
    destruct (remover (mkRemover ev (UserFn id)) b) as [[u|e] b1];
      simpl in *; [|done].
    by rewrite IH.
Qed.

Lemma quiet_invoke cb b :
  quiet body evento datos cb →
  listeners (invoke body cb datos b).2 !! evento = listeners b !! evento.
Proof.
  induction cb as [id|fid ev inner IH]; simpl.
  - intros Hq. by rewrite quiet_actions.
  - intros [Hne Hq]. specialize (IH Hq).
    destruct (invoke body inner datos b) as [[u|e] b1]; simpl in *; [|done].
    by rewrite remover_other.
Qed.

Lemma self_contained_actions id acts b s :
  Forall (λ a, quiet_action evento a ∨
               a = AOff evento id ∨ a = ARemover evento id) acts →
  listeners b !! evento = Some s →
  ∃ s', listeners (run_actions acts b).2 !! evento = Some s' ∧
        emptied_of (UserFn id) s s'.
Proof.
  revert b s. induction acts as [|a acts IH]; intros b s Hq Hs.
  { exists s. split; [done|apply emptied_of_refl]. }
  apply Forall_cons in Hq as [Ha Hq].
  destruct Ha as [Ha|[->| ->]].
  - destruct a as [|ev i|ev i]; cbn [run_actions run_action]; simpl in Ha.
    + exists s. split; [done|apply emptied_of_refl].
    + apply IH; [done|]. by rewrite off_other.
    + pose proof (remover_other ev (UserFn i) b Ha) as Hr.
      destruct (remover (mkRemover ev (UserFn i)) b) as [[u|e] b1];
        simpl in *.
      * apply IH; [done|congruence].
      * exists s. split; [congruence|apply emptied_of_refl].
  - cbn [run_actions run_action]. rewrite (off_same _ _ s) by done.
    edestruct (IH (with_listeners
                     (<[evento := JSSet.delete s (UserFn id)]> (listeners b)) b))
      as (s' & Hs' & He); [done|by simpl; rewrite lookup_insert_eq|].
    exists s'. split; [done|].
    eapply emptied_of_trans; [apply delete_emptied|done].
  - cbn [run_actions run_action]. rewrite (remover_same _ _ s) by done.
    edestruct (IH (with_listeners
                     (<[evento := JSSet.delete s (UserFn id)]> (listeners b)) b))
      as (s' & Hs' & He); [done|by simpl; rewrite lookup_insert_eq|].
    exists s'. split; [done|].
    eapply emptied_of_trans; [apply delete_emptied|done].
Qed.

Lemma self_contained_invoke cb b s :
  self_contained body evento datos cb →
  listeners b !! evento = Some s →
  ∃ s', listeners (invoke body cb datos b).2 !! evento = Some s' ∧
        emptied_of cb s s'.
Proof.
  destruct cb as [id|fid ev inner]; simpl; intros Hq Hs.
  - by apply self_contained_actions.
  - pose proof (quiet_invoke inner b Hq) as Hi.
    destruct (invoke body inner datos b) as [[u|e] b1]; simpl in *.
    + rewrite Hs in Hi. destruct (decide (ev = evento)) as [->|Hne].
      * rewrite (remover_same _ _ s) by done. simpl.
        rewrite lookup_insert_eq. eexists. split; [done|apply delete_emptied].
      * rewrite remover_other by done. exists s.
        split; [congruence|apply emptied_of_refl].
    + exists s. split; [congruence|apply emptied_of_refl].
Qed.

Lemma returning_quiet_actions acts b :
  Forall (returning_action evento) acts → Forall (quiet_action evento) acts →
  (run_actions acts b).1 = Normal ().
Proof.
  revert b. induction acts as [|a acts IH]; intros b Hr Hq; [done|].
  apply Forall_cons in Hr as [Ha Hr]. apply Forall_cons in Hq as [Ha' Hq].
  destruct a as [|ev id|ev id]; cbn [run_actions run_action]; simpl in *.
  - done.
  - by apply IH.
  - done.
Qed.

Lemma removes_itself_actions id acts b s i :
  Forall (returning_action evento) acts →
  Forall (λ a, quiet_action evento a ∨
               a = AOff evento id ∨ a = ARemover evento id) acts →
  AOff evento id ∈ acts ∨ ARemover evento id ∈ acts →
  listeners b !! evento = Some s →
  s !! i = Some (Some (UserFn id)) →
  (∀ j, s !! j = Some (Some (UserFn id)) → j = i) →
  ∃ s', listeners (run_actions acts b).2 !! evento = Some s' ∧
        s' !! i = Some None.
Proof.
  revert b s. induction acts as [|a acts IH]; intros b s Hr Hq Hin Hs Hi Hu.
  { destruct Hin as [Hin|Hin]; by apply elem_of_nil in Hin. }
  apply Forall_cons in Hr as [Ha Hr]. apply Forall_cons in Hq as [Ha' Hq].
  assert (∀ b1, listeners b1 !! evento = Some (JSSet.delete s (UserFn id)) →
            ∃ s', listeners (run_actions acts b1).2 !! evento = Some s' ∧
                  s' !! i = Some None) as Hafter.
  { intros b1 Hb1.
    destruct (self_contained_actions id acts b1 _ Hq Hb1) as (s' & Hs' & _ & He).
    exists s'. split; [done|].
    pose proof (delete_at s (UserFn id) i Hi Hu) as Hd.
    destruct (He i) as [->|[Hx _]]; [done|congruence]. }
  destruct Ha' as [Ha'|[->| ->]].
  - destruct a as [|ev k|ev k]; cbn [run_actions run_action];
      simpl in Ha, Ha'; [done| |congruence].
    apply (IH _ s); try done.
    + destruct Hin as [Hin|Hin]; apply elem_of_cons in Hin as [Hin|Hin];
        simplify_eq; auto.
    + by rewrite off_other.
  - cbn [run_actions run_action]. rewrite (off_same _ _ s) by done.
    apply Hafter. simpl. by rewrite lookup_insert_eq.
  - cbn [run_actions run_action]. rewrite (remover_same _ _ s) by done.
    apply Hafter. simpl. by rewrite lookup_insert_eq.
Qed.

Lemma removes_itself_invoke cb b s i :
  removes_itself body evento datos cb →
  self_contained body evento datos cb →
  listeners b !! evento = Some s →
  s !! i = Some (Some cb) →
  (∀ j, s !! j = Some (Some cb) → j = i) →
  ∃ s', listeners (invoke body cb datos b).2 !! evento = Some s' ∧
        s' !! i = Some None.
Proof.
  destruct cb as [id|fid ev [id|]]; simpl; [| |done].
  - intros [Hr Hin] Hq Hs Hi Hu. by eapply removes_itself_actions.
  - intros [-> Hr] Hq Hs Hi Hu.
    pose proof (returning_quiet_actions _ (note_call id datos b) Hr Hq) as Hn.
    pose proof (quiet_actions _ (note_call id datos b) Hq) as Hl.
    destruct (run_actions (body id datos) (note_call id datos b))
      as [[u|e] b1]; simpl in *; [|done].
    rewrite Hs in Hl. rewrite (remover_same _ _ s) by done. simpl.
    rewrite lookup_insert_eq. eexists. split; [done|]. by apply delete_at.
Qed.

(** The dispatch loop: every subscriber present when it starts is called
    once, in the order of the slots, and the subscribers that take
    themselves out are gone when it ends. *)
Lemma forEach_visits s0 :
  JSSet.wf s0 →
  (∀ cb, cb ∈ JSSet.values s0 → self_contained body evento datos cb) →
  ∀ n idx b s,
    (n + idx)%nat = length s0 →
    listeners b !! evento = Some s →
    emptied_before idx s0 s →
    (∀ j cb, (j < idx)%nat → s0 !! j = Some (Some cb) →
             removes_itself body evento datos cb → s !! j = Some None) →
    let b' := forEach body evento datos n idx b in
    dispatched b' =
      dispatched b ++ ((λ cb, (cb, datos)) <$> JSSet.values (drop idx s0)) ∧
    calls b' =
      calls b ++ ((λ cb, (target cb, datos)) <$> JSSet.values (drop idx s0)) ∧
    ∃ s', listeners b' !! evento = Some s' ∧
          emptied_before (length s0) s0 s' ∧
          (∀ j cb, s0 !! j = Some (Some cb) →
                   removes_itself body evento datos cb → s' !! j = Some None).
Proof.
  intros Hwf Hsc n. induction n as [|n IH]; intros idx b s Hlen Hs He Hrem.
  { simpl in *. subst idx. rewrite drop_all. simpl. rewrite !app_nil_r.
    split; [done|]. split; [done|]. exists s. split; [done|]. split; [done|].
    intros j cb Hj. apply Hrem; [|done]. by apply lookup_lt_Some in Hj. }
  destruct He as [Hl Hslots].
  assert (idx < length s0)%nat as Hidx by lia.
  destruct (lookup_lt_is_Some_2 s0 idx Hidx) as [slot Hslot].
  assert (s !! idx = Some slot) as Hcur.
  { destruct (Hslots idx) as [->|[? _]]; [done|lia]. }
  cbn [forEach]. rewrite Hs. simpl. rewrite Hcur.
  rewrite (drop_S _ _ _ Hslot).
  destruct slot as [cb|].
  - pose proof (invoke_frame body cb datos (note_dispatch cb datos b))
      as (_ & Hd & _ & _).
    pose proof (invoke_calls body cb datos (note_dispatch cb datos b)) as Hc.
    assert (∀ j, s !! j = Some (Some cb) → j = idx) as Huniq.
    { intros j Hj. destruct (Hslots j) as [Hj0|[? Hn]]; [|congruence].
      rewrite Hj0 in Hj. by apply (wf_unique s0 j idx cb). }
    destruct (self_contained_invoke cb (note_dispatch cb datos b) s)
      as (s1 & Hs1 & [Hl1 He1]); [by eapply Hsc, values_lookup|done|].
    assert (emptied_before (S idx) s0 s1) as Hnext.
    { split; [congruence|]. intros j.
      destruct (He1 j) as [->|[Hj ->]].
      - destruct (Hslots j) as [->|[? ->]]; [by left|right; split; [lia|done]].
      - right. split; [|done]. rewrite (Huniq j Hj). lia. }
    assert (∀ j cb', (j < S idx)%nat → s0 !! j = Some (Some cb') →
              removes_itself body evento datos cb' → s1 !! j = Some None)
      as Hrem1.
    { intros j cb' Hj Hj0 Hself.
      destruct (decide (j = idx)) as [->|Hne].
      - assert (cb' = cb) as -> by congruence.
        destruct (removes_itself_invoke cb (note_dispatch cb datos b) s idx)
          as (s1' & Hs1' & Hnone); [done|by eapply Hsc, values_lookup|done..|].
        congruence.
      - assert (s !! j = Some None) as Hn by (eapply Hrem; [lia|done..]).
        destruct (He1 j) as [->|[Hx _]]; [done|congruence]. }
    destruct (invoke body cb datos (note_dispatch cb datos b)) as [[u|e] b1];
      simpl in *.
    + destruct (IH (S idx) b1 s1) as (Hdisp & Hcalls & Hfin); [lia|done..|].
      split_and!; [| |done].
      * rewrite Hdisp, Hd. simpl. by rewrite <- app_assoc.
      * rewrite Hcalls, Hc. simpl. by rewrite <- app_assoc.
    + destruct (IH (S idx) (log_error evento e b1) s1)
        as (Hdisp & Hcalls & Hfin); [lia|done..|].
      split_and!; [| |done].
      * rewrite Hdisp. simpl. rewrite Hd. simpl. by rewrite <- app_assoc.
      * rewrite Hcalls. simpl. rewrite Hc. simpl. by rewrite <- app_assoc.
  - simpl. apply (IH (S idx) b s); [lia|done| |].
    + split; [done|]. intros j.
      destruct (Hslots j) as [->|[? ->]]; [by left|right; split; [lia|done]].
    + intros j cb Hj Hj0. destruct (decide (j = idx)) as [->|Hne];
        [congruence|]. apply Hrem; [lia|done].
Qed.

End Effects.

Section Emit.

Import EventBus.

Variable body : nat → list Value → list Action.

Lemma emit_visits ev datos b s :
  listeners b !! ev = Some s → JSSet.wf s →
  (∀ cb, cb ∈ JSSet.values s → self_contained body ev datos cb) →
  ∃ b' s',
    emit body (VStr ev) datos b = (Normal (), b') ∧
    dispatched b' = dispatched b ++ ((λ cb, (cb, datos)) <$> JSSet.values s) ∧
    calls b' = calls b ++ ((λ cb, (target cb, datos)) <$> JSSet.values s) ∧
    listeners b' !! ev = Some s' ∧
    JSSet.values s' `sublist_of` JSSet.values s ∧
    (∀ cb, cb ∈ JSSet.values s → removes_itself body ev datos cb →
           cb ∉ JSSet.values s').
Proof.
  intros Hs Hwf Hsc. unfold emit. simpl. rewrite Hs.
  destruct (forEach_visits body ev datos s Hwf Hsc (length s) 0
              (note_emit ev datos b) s)
    as (Hd & Hc & s' & Hs' & He & Hrem).
  - lia.
  - done.
  - split; [done|]. by left.
  - intros; lia.
  - eexists _, s'. split; [done|]. rewrite drop_0 in Hd, Hc.
    split_and!; try done.
    + by eapply emptied_before_values.
    + intros cb Hin Hself Hin'.
      apply values_elem_of, list_elem_of_lookup in Hin' as [j Hj].
      destruct He as [_ He]. destruct (He j) as [Hj0|[_ Hn]]; [|congruence].
      rewrite Hj0 in Hj. specialize (Hrem j cb Hj Hself). congruence.
Qed.

Lemma times_dispatched_absent (l : list Callback) cb (datos : list Value) :
  cb ∉ l → times_dispatched cb ((λ x, (x, datos)) <$> l) = 0%nat.
Proof.
  unfold times_dispatched. induction l as [|x l IH]; intros Hin; [done|].
  apply not_elem_of_cons in Hin as [Hne Hin].
  rewrite fmap_cons, filter_cons_False by (simpl; congruence). by apply IH.
Qed.

Lemma times_dispatched_NoDup (l : list Callback) cb (datos : list Value) :
  NoDup l → cb ∈ l →
  times_dispatched cb ((λ x, (x, datos)) <$> l) = 1%nat.
Proof.
  induction 1 as [|x l Hx Hl IH]; intros Hin.
  - by apply elem_of_nil in Hin.
  - apply elem_of_cons in Hin as [->|Hin].
    + pose proof (times_dispatched_absent l x datos Hx) as H0.
      unfold times_dispatched in *.
      rewrite fmap_cons, filter_cons_True by done. simpl. f_equal. exact H0.
    + specialize (IH Hin). unfold times_dispatched in *.
      rewrite fmap_cons, filter_cons_False; [exact IH|]. simpl. by intros ->.
Qed.

Lemma dispatched_since_app b b' l :
  dispatched b' = dispatched b ++ l → dispatched_since b b' = l.
Proof. unfold dispatched_since. intros ->. by rewrite drop_app_length. Qed.

Lemma calls_since_app b b' l :
  calls b' = calls b ++ l → calls_since b b' = l.
Proof. unfold calls_since. intros ->. by rewrite drop_app_length. Qed.

End Emit.

(** ** Subscribing and unsubscribing *)

Section Subscriptions.

Import EventBus.

Variable body : nat → list Value → list Action.

Lemma with_listeners_same b : with_listeners (listeners b) b = b.
Proof. by destruct b. Qed.

Lemma on_eq ev cb b :
  on (VStr ev) (VFun cb) b =
  if blank ev then (Throw ErrNombreEvento, b)
  else
    (Normal (mkRemover ev cb),
     with_listeners
       (<[ev := JSSet.add (default JSSet.empty (listeners b !! ev)) cb]>
          (listeners b)) b).
Proof.
  unfold on, validarTipo. destruct (blank ev); [done|].
  destruct (listeners b !! ev) as [s|] eqn:Hs; simpl.
  - by rewrite Hs.
  - by rewrite lookup_insert_eq, insert_insert_eq.
Qed.

Lemma on_inv evento callback b r b1 :
  on evento callback b = (Normal r, b1) →
  ∃ ev cb, evento = VStr ev ∧ callback = VFun cb ∧ blank ev = false ∧
           r = mkRemover ev cb ∧
           b1 = with_listeners
                  (<[ev := JSSet.add (default JSSet.empty (listeners b !! ev)) cb]>
                     (listeners b)) b.
Proof.
  destruct evento as [| | | |ev| |]; try done.
  destruct callback as [| | | | | |cb];
    try (unfold on, validarTipo; by destruct (blank ev)).
  rewrite on_eq. destruct (blank ev) eqn:Hb; [done|].
  intros [= <- <-]. by exists ev, cb.
Qed.

Lemma delete_absent s cb : Some cb ∉ s → JSSet.delete s cb = s.
Proof.
  induction s as [|[x|] s IH]; simpl; intros Hin; [done| |].
  - apply not_elem_of_cons in Hin as [Hne Hin].
    rewrite decide_False by congruence. by rewrite IH.
  - apply not_elem_of_cons in Hin as [_ Hin]. by rewrite IH.
Qed.

Lemma delete_twice s cb :
  JSSet.wf s → JSSet.delete (JSSet.delete s cb) cb = JSSet.delete s cb.
Proof.
  intros Hwf. apply delete_absent. rewrite <- values_elem_of.
  by apply values_delete_not_in.
Qed.

(** While the event has its set, the remover takes the callback out, and
    calling it again changes nothing. *)
Lemma remover_removes ev cb b s :
  listeners b !! ev = Some s → JSSet.wf s →
  let after := remover (mkRemover ev cb) b in
  after.1 = Normal () ∧
  (cb ∉ subscribers ev (after.2)) ∧
  (∀ x, x ≠ cb → (x ∈ subscribers ev (after.2) ↔ x ∈ subscribers ev b)) ∧
  (∀ ev', ev' ≠ ev → listeners (after.2) !! ev' = listeners b !! ev') ∧
  remover (mkRemover ev cb) (after.2) = (Normal (), after.2).
Proof.
  intros Hs Hwf. rewrite (remover_same ev cb b s Hs). simpl.
  unfold subscribers. simpl. rewrite lookup_insert_eq, Hs.
  split_and!.
  - done.
  - by apply values_delete_not_in.
  - intros x Hne. split.
    + intros Hin. eapply elem_of_sublist; [done|].
      eapply emptied_values, delete_emptied.
    + rewrite !values_elem_of. intros [j Hj]%list_elem_of_lookup.
      destruct (delete_emptied s cb) as [_ He].
      destruct (He j) as [Heq|[Hc _]]; [|congruence].
      apply list_elem_of_lookup. exists j. congruence.
  - intros ev' Hne. by rewrite lookup_insert_ne.
  - erewrite remover_same; [|by simpl; rewrite lookup_insert_eq].
    simpl. by rewrite insert_insert_eq, delete_twice.
Qed.

(** C3: after [clear] a remover throws a TypeError ([listeners.get(evento)]
    is [undefined]) instead of doing nothing; [off] guards this case with
    [listeners.has(evento)], the remover does not. *)
Theorem remover_after_clear_throws r b :
  remover r (clear b) = (Throw TypeError, clear b).
Proof. unfold remover, clear. simpl. by rewrite lookup_empty. Qed.

Example remover_after_clear_example :
  ∃ r b1,
    on (VStr "auth:login") (VFun (UserFn 0)) initial = (Normal r, b1) ∧
    (remover r (clear b1)).1 = Throw TypeError ∧
    off (VStr "auth:login") (VFun (UserFn 0)) (clear b1) = clear b1.
Proof. eexists _, _. split; [reflexivity|]. split; reflexivity. Qed.

(** ** Two [on] calls with one function *)


End Subscriptions.

(** ** The cache owns its timers *)

Lemma owned_initial t0 : 0 ≤ t0 → timers_owned (store (initial t0)).
Proof.
  intros Ht. split; simpl; [done | | | ]; intros ? ? H;
    by rewrite lookup_empty in H.
Qed.

Lemma limpiarEntrada_cache k st k' :
  cache (limpiarEntrada k st) !! k' =
  if decide (k = k') then None else cache st !! k'.
Proof.
  unfold limpiarEntrada.
  destruct (cache st !! k) as [e|] eqn:Hk.
  - destruct (timeoutId e); simpl; rewrite lookup_delete; by case_decide.
  - case_decide; by subst.
Qed.

Lemma limpiarEntrada_stats k st : stats (limpiarEntrada k st) = stats st.
Proof.
  unfold limpiarEntrada. destruct (cache st !! k) as [e|]; [|done].
  by destruct (timeoutId e).
Qed.

Lemma limpiarEntrada_clock k st : clock (limpiarEntrada k st) = clock st.
Proof.
  unfold limpiarEntrada. destruct (cache st !! k) as [e|]; [|done].
  by destruct (timeoutId e).
Qed.

Lemma limpiarEntrada_next_timer k st :
  next_timer (limpiarEntrada k st) = next_timer st.
Proof.
  unfold limpiarEntrada. destruct (cache st !! k) as [e|]; [|done].
  by destruct (timeoutId e).
Qed.

Lemma limpiarEntrada_timers k st tid :
  timers (limpiarEntrada k st) !! tid =
  match cache st !! k ≫= timeoutId with
  | Some t => if decide (t = tid) then None else timers st !! tid
  | None => timers st !! tid
  end.
Proof.
  unfold limpiarEntrada. destruct (cache st !! k) as [e|]; [|done]. simpl.
  destruct (timeoutId e); simpl; [|done]. apply lookup_delete.
Qed.

Lemma owned_limpiarEntrada k st :
  timers_owned st → timers_owned (limpiarEntrada k st).
Proof.
  intros [Hc Ht Hf He]. split.
  - by rewrite limpiarEntrada_clock.
  - intros tid tm. rewrite limpiarEntrada_timers, limpiarEntrada_cache.
    intros Htm.
    assert (timers st !! tid = Some tm) as Htm'.
    { destruct (cache st !! k ≫= timeoutId); [case_decide|]; done. }
    destruct (Ht _ _ Htm') as (v & x & Hv & Hd). exists v, x.
    case_decide as Hk; [|done]. subst k. rewrite Hv in Htm. simpl in Htm.
    by case_decide.
  - intros tid tm. rewrite limpiarEntrada_timers, limpiarEntrada_next_timer.
    intros Htm. apply (Hf tid tm).
    destruct (cache st !! k ≫= timeoutId); [case_decide|]; done.
  - intros k' e. rewrite limpiarEntrada_cache. case_decide as Hk; [done|].
    intros He'. specialize (He _ _ He') as Hown.
    destruct (timeoutId e) as [t|]; [|done].
    destruct Hown as [[d Hown] Hpos]. split; [|done]. exists d.
    rewrite limpiarEntrada_timers.
    destruct (cache st !! k) as [e0|] eqn:Hk0; [|done]. simpl.
    destruct (timeoutId e0) as [t0|] eqn:Ht0; [|done].
    case_decide as Heq; [|done]. subst t0.
    specialize (He _ _ Hk0). rewrite Ht0 in He. destruct He as [[d0 He] _].
    rewrite Hown in He. by simplify_eq.
Qed.

Lemma owned_one_timer st : timers_owned st → one_timer_per_key st.
Proof.
  intros [_ Ht _ _] t1 t2 tm1 tm2 H1 H2 Hk.
  destruct (Ht _ _ H1) as (v1 & x1 & Hv1 & _), (Ht _ _ H2) as (v2 & x2 & Hv2 & _).
  rewrite Hk in Hv1. rewrite Hv1 in Hv2. by simplify_eq.
Qed.

Lemma normalizar_ttl_nonneg ttl : 0 ≤ normalizar_ttl ttl.
Proof. destruct ttl; simpl; try done. case_bool_decide; lia. Qed.

Lemma host_delay_in_range ttl : 1 ≤ ttl ≤ max_delay → host_delay ttl = ttl.
Proof. intros H. unfold host_delay. by rewrite bool_decide_true. Qed.

Lemma host_delay_bounds ttl : 0 < ttl → 1 ≤ host_delay ttl ≤ ttl.
Proof. intros H. unfold host_delay. case_bool_decide; lia. Qed.

Lemma host_delay_due_for t ttl :
  0 < ttl → due_for (t + host_delay ttl) (t + ttl).
Proof.
  intros H. unfold due_for, host_delay. case_bool_decide; [by left|right].
  lia.
Qed.

Lemma set_armed k valor ttl w :
  blank k = false → normalizar_ttl ttl > 0 →
  let st1 := limpiarEntrada k (store w) in
  let tid := next_timer st1 in
  let expira := clock st1 + normalizar_ttl ttl in
  let vence := clock st1 + host_delay (normalizar_ttl ttl) in
  set (VStr k) valor ttl w =
  (Normal (),
   mkWorld (bus w)
     (mkState (<[k := mkEntrada valor expira (Some tid)]> (cache st1))
        (stats st1) (<[tid := mkTimer vence k]> (timers st1)) (S tid)
        (clock st1))).
Proof.
  intros Hk Hpos. unfold set. rewrite Hk.
  rewrite bool_decide_true by done. reflexivity.
Qed.

Lemma set_unarmed k valor ttl w :
  blank k = false → normalizar_ttl ttl = 0 →
  let st1 := limpiarEntrada k (store w) in
  set (VStr k) valor ttl w =
  (Normal (),
   mkWorld (bus w)
     (with_cache (<[k := mkEntrada valor 0 None]> (cache st1)) st1)).
Proof.
  intros Hk Hz. unfold set. rewrite Hk, Hz.
  rewrite bool_decide_false by lia. reflexivity.
Qed.

Lemma set_invalid clave valor ttl w :
  match clave with VStr k => blank k = true | _ => True end →
  set clave valor ttl w = (Throw ErrClave, w).
Proof. destruct clave; try done. simpl. by intros ->. Qed.

Lemma set_bus clave valor ttl w : bus (set clave valor ttl w).2 = bus w.
Proof.
  destruct clave; try done. simpl. destruct (blank s); [done|].
  by case_bool_decide.
Qed.

Lemma owned_set clave valor ttl w :
  timers_owned (store w) → timers_owned (store (set clave valor ttl w).2).
Proof.
  intros Hown.
  destruct clave as [| | | |k| |];
    try (by rewrite set_invalid).
  destruct (blank k) eqn:Hk; [by rewrite set_invalid|].
  pose proof (owned_limpiarEntrada k _ Hown) as [Hc Ht Hf He].
  pose proof (limpiarEntrada_cache k (store w) k) as Hgone.
  rewrite decide_True in Hgone by done.
  pose proof (normalizar_ttl_nonneg ttl) as Hnn.
  destruct (decide (normalizar_ttl ttl = 0)) as [Hz|Hnz].
  - rewrite set_unarmed by done. simpl. split; simpl; [done| | |].
    + intros tid tm Htm. destruct (Ht _ _ Htm) as (v & x & Hv & Hd).
      exists v, x. rewrite lookup_insert_ne; [done|].
      intros Heq. rewrite <- Heq in Hv. by rewrite Hv in Hgone.
    + done.
    + intros k' e. rewrite lookup_insert. case_decide.
      * intros; by simplify_eq.
      * apply He.
  - rewrite set_armed by (done || lia). simpl.
    set (st1 := limpiarEntrada k (store w)) in *.
    assert (timers st1 !! next_timer st1 = None) as Hfresh.
    { destruct (timers st1 !! next_timer st1) eqn:E; [|done].
      apply Hf in E. lia. }
    split; simpl; [done| | |].
    + intros tid tm. rewrite lookup_insert. case_decide as Htid.
      * intros; simplify_eq. simpl. rewrite lookup_insert_eq.
        eexists _, _. split; [done|]. apply host_delay_due_for. lia.
      * intros Htm. destruct (Ht _ _ Htm) as (v & x & Hv & Hd).
        exists v, x. rewrite lookup_insert_ne; [done|].
        intros Heq. rewrite <- Heq in Hv. by rewrite Hv in Hgone.
    + intros tid tm. rewrite lookup_insert. case_decide.
      * intros; simplify_eq. lia.
      * intros Htm. apply Hf in Htm. lia.
    + intros k' e. rewrite lookup_insert. case_decide.
      * intros; simplify_eq. simpl. rewrite lookup_insert_eq.
        split; [eauto|lia].
      * intros He'. specialize (He _ _ He').
        destruct (timeoutId e) as [t|]; [|done].
        destruct He as [[d He] Hp]. split; [|done]. exists d.
        rewrite lookup_insert_ne; [done|]. intros <-. by rewrite Hfresh in He.
Qed.

Lemma owned_tick d w : timers_owned (store w) → timers_owned (store (tick d w)).
Proof. intros [Hc Ht Hf He]. split; simpl; [lia|done..]. Qed.

Lemma owned_fire tid w : timers_owned (store w) → timers_owned (store (fire tid w)).
Proof.
  intros Hown. unfold fire.
  destruct (timers (store w) !! tid) as [tm|] eqn:Htm; [|done].
  case_bool_decide; [|done]. simpl.
  destruct Hown as [Hc Ht Hf He].
  destruct (Ht _ _ Htm) as (v & x & Hv & _).
  split; simpl; [done| | |].
  - intros tid' tm'. rewrite lookup_delete. case_decide; [done|].
    intros Htm'. destruct (Ht _ _ Htm') as (v' & x' & Hv' & Hd').
    exists v', x'. rewrite lookup_delete_ne; [done|]. intros Heq.
    rewrite Heq in Hv. rewrite Hv in Hv'. by simplify_eq.
  - intros tid' tm'. rewrite lookup_delete. case_decide; [done|]. apply Hf.
  - intros k e. rewrite lookup_delete. case_decide as Hk; [done|].
    intros He'. specialize (He _ _ He').
    destruct (timeoutId e) as [t|]; [|done]. destruct He as [[d He] Hp].
    split; [|done]. exists d. rewrite lookup_delete_ne; [done|].
    intros <-. rewrite Htm in He. by simplify_eq.
Qed.

Lemma emit_returns body ev datos b :
  (EventBus.emit body (VStr ev) datos b).1 = Normal ().
Proof.
  unfold EventBus.emit.
  by destruct (EventBus.listeners (EventBus.note_emit ev datos b) !! ev).
Qed.

Lemma emit_and_return_eq body ev datos r st b :
  emit_and_return body ev datos r st b =
  (Normal r, mkWorld (EventBus.emit body (VStr ev) datos b).2 st).
Proof.
  unfold emit_and_return. pose proof (emit_returns body ev datos b) as H.
  destruct (EventBus.emit body (VStr ev) datos b) as [[u|e] b1];
    simpl in *; [done|discriminate].
Qed.

Lemma get_eq body clave w :
  get body clave w =
  match lookup_clave clave (store w) with
  | None =>
      (Normal VNull,
       mkWorld (EventBus.emit body (VStr "cache:miss") [clave] (bus w)).2
         (count_miss (store w)))
  | Some e =>
      if decide (expired e (clock (store w))) then
        (Normal VNull,
         mkWorld (EventBus.emit body (VStr "cache:miss") [clave] (bus w)).2
           (count_miss
              (match clave with
               | VStr k => limpiarEntrada k (store w)
               | _ => store w
               end)))
      else
        (Normal (valor e),
         mkWorld
           (EventBus.emit body (VStr "cache:hit") [clave; valor e] (bus w)).2
           (count_hit (store w)))
  end.
Proof.
  unfold get. destruct (lookup_clave clave (store w)) as [e|].
  - unfold expired. case_decide as Hex.
    + destruct Hex. rewrite !bool_decide_true by done. simpl.
      apply emit_and_return_eq.
    + destruct (bool_decide (expiracion e > 0)) eqn:H1;
        destruct (bool_decide (expiracion e < clock (store w))) eqn:H2;
        simpl; try apply emit_and_return_eq.
      apply bool_decide_eq_true in H1, H2. tauto.
  - apply emit_and_return_eq.
Qed.

Lemma owned_stats s st : timers_owned st → timers_owned (with_stats s st).
Proof. by intros []. Qed.

Lemma owned_get body clave w :
  timers_owned (store w) → timers_owned (store (get body clave w).2).
Proof.
  intros Hown. rewrite get_eq.
  destruct (lookup_clave clave (store w)) as [e|]; [case_decide|]; simpl;
    apply owned_stats; try done.
  destruct clave; try done. by apply owned_limpiarEntrada.
Qed.

Lemma owned_del clave w :
  timers_owned (store w) → timers_owned (store (del clave w).2).
Proof.
  intros Hown. destruct clave; try done. simpl.
  destruct (cache (store w) !! s); [|done]. simpl.
  by apply owned_limpiarEntrada.
Qed.

Lemma owned_foldl_limpiar ks st :
  timers_owned st →
  timers_owned (foldl (λ st k, limpiarEntrada k st) st ks).
Proof.
  revert st. induction ks as [|k ks IH]; intros st Hown; [done|].
  simpl. by apply IH, owned_limpiarEntrada.
Qed.

Lemma foldl_limpiar_cache ks st k :
  cache (foldl (λ st k, limpiarEntrada k st) st ks) !! k =
  if decide (k ∈ ks) then None else cache st !! k.
Proof.
  revert st. induction ks as [|k' ks IH]; intros st; [done|].
  cbn [foldl]. rewrite IH, limpiarEntrada_cache.
  destruct (decide (k ∈ ks)) as [Hin|Hin].
  - rewrite decide_True; [done|]. by apply list_elem_of_further.
  - destruct (decide (k' = k)) as [->|Hne].
    + rewrite decide_True; [done|]. apply list_elem_of_here.
    + rewrite decide_False; [done|].
      intros [?|?]%elem_of_cons; [congruence|done].
Qed.

Lemma foldl_limpiar_all st k :
  cache (foldl (λ st k, limpiarEntrada k st) st (map_to_list (cache st)).*1)
    !! k = None.
Proof.
  rewrite foldl_limpiar_cache. case_decide as Hin; [done|].
  destruct (cache st !! k) as [e|] eqn:He; [|done].
  exfalso. apply Hin. apply list_elem_of_fmap. exists (k, e).
  split; [done|]. by apply elem_of_map_to_list.
Qed.

Lemma clear_timers w tid :
  timers_owned (store w) → timers (store (clear w)) !! tid = None.
Proof.
  intros Hown. unfold clear. simpl.
  pose proof (owned_foldl_limpiar (map_to_list (cache (store w))).*1 _ Hown)
    as [_ Ht _ _].
  destruct (timers _ !! tid) as [tm|] eqn:Htm; [|done].
  destruct (Ht _ _ Htm) as (v & x & Hv & _).
  by rewrite foldl_limpiar_all in Hv.
Qed.

Lemma owned_clear w : timers_owned (store w) → timers_owned (store (clear w)).
Proof.
  intros Hown. pose proof (clear_timers w) as Hnone.
  pose proof (owned_foldl_limpiar (map_to_list (cache (store w))).*1 _ Hown)
    as [Hc _ _ _].
  split.
  - done.
  - intros tid tm Htm. by rewrite Hnone in Htm.
  - intros tid tm Htm. by rewrite Hnone in Htm.
  - intros k e. unfold clear. simpl. by rewrite lookup_empty.
Qed.

Lemma owned_step body w o :
  timers_owned (store w) → timers_owned (store (step body w o)).
Proof.
  intros Hown. destruct o; simpl; try done.
  - by apply owned_set.
  - by apply owned_get.
  - by apply owned_del.
  - by apply owned_clear.
  - by apply owned_tick.
  - by apply owned_fire.
Qed.

Lemma owned_run body ops w :
  timers_owned (store w) → timers_owned (store (run body ops w)).
Proof.
  revert w. induction ops as [|o ops IH]; intros w Hown; [done|].
  simpl. by apply IH, owned_step.
Qed.

Lemma owned_reachable body w : reachable body w → timers_owned (store w).
Proof.
  intros (t0 & ops & Ht & ->). by apply owned_run, owned_initial.
Qed.

(** ** How long an entry stays *)

Lemma set_other_key k k' valor ttl w :
  k' ≠ k →
  cache (store (set (VStr k') valor ttl w).2) !! k = cache (store w) !! k.
Proof.
  intros Hne. destruct (blank k') eqn:Hb; [by rewrite set_invalid|].
  pose proof (normalizar_ttl_nonneg ttl).
  destruct (decide (normalizar_ttl ttl = 0)).
  - rewrite set_unarmed by done. simpl.
    rewrite lookup_insert_ne, limpiarEntrada_cache by done.
    by rewrite decide_False.
  - rewrite set_armed by (done || lia). simpl.
    rewrite lookup_insert_ne, limpiarEntrada_cache by done.
    by rewrite decide_False.
Qed.

Lemma set_clock clave valor ttl w :
  clock (store (set clave valor ttl w).2) = clock (store w).
Proof.
  destruct clave as [| | | |k| |]; try done.
  destruct (blank k) eqn:Hb; [by rewrite set_invalid|].
  pose proof (normalizar_ttl_nonneg ttl).
  destruct (decide (normalizar_ttl ttl = 0)).
  - rewrite set_unarmed by done. simpl. apply limpiarEntrada_clock.
  - rewrite set_armed by (done || lia). simpl. apply limpiarEntrada_clock.
Qed.

Lemma step_clock body w o : clock (store w) ≤ clock (store (step body w o)).
Proof.
  destruct o; simpl; try lia.
  - rewrite set_clock. lia.
  - rewrite get_eq.
    destruct (lookup_clave clave (store w)); [case_decide|]; simpl; try lia.
    destruct clave; simpl; try lia. rewrite limpiarEntrada_clock. lia.
  - destruct clave; simpl; try lia.
    destruct (cache (store w) !! s); simpl; [|lia].
    rewrite limpiarEntrada_clock. lia.
  - unfold clear. simpl.
    generalize (map_to_list (cache (store w))).*1. intros ks.
    generalize (store w). induction ks as [|k ks IH]; intros st; simpl; [lia|].
    etrans; [|apply IH]. rewrite limpiarEntrada_clock. lia.
  - unfold fire. destruct (timers (store w) !! tid); [|lia].
    case_bool_decide; simpl; lia.
Qed.

Lemma run_clock body ops w : clock (store w) ≤ clock (store (run body ops w)).
Proof.
  revert w. induction ops as [|o ops IH]; intros w; simpl; [lia|].
  etrans; [apply (step_clock body w o)|apply IH].
Qed.

Lemma limpiar_other_timer k k' st tid tm :
  timers_owned st → k' ≠ k → clave_of tm = k →
  timers st !! tid = Some tm →
  timers (limpiarEntrada k' st) !! tid = Some tm.
Proof.
  intros Hown Hne Hk Htm. rewrite limpiarEntrada_timers.
  destruct (cache st !! k') as [e0|] eqn:Hk0; [|done]. simpl.
  destruct (timeoutId e0) as [t0|] eqn:Ht0; [|done].
  case_decide as Heq; [|done]. subst t0.
  pose proof (entry_has_timer _ Hown _ _ Hk0) as He. rewrite Ht0 in He.
  destruct He as [[d He] _]. rewrite Htm in He. by simplify_eq.
Qed.

Lemma set_other_timer k k' valor ttl w tid tm :
  timers_owned (store w) → k' ≠ k → clave_of tm = k →
  timers (store w) !! tid = Some tm →
  timers (store (set (VStr k') valor ttl w).2) !! tid = Some tm.
Proof.
  intros Hown Hne Hk Htm.
  pose proof (limpiar_other_timer k k' _ tid tm Hown Hne Hk Htm) as Hl.
  destruct (blank k') eqn:Hb; [by rewrite set_invalid|].
  pose proof (normalizar_ttl_nonneg ttl).
  destruct (decide (normalizar_ttl ttl = 0)).
  - by rewrite set_unarmed by done.
  - rewrite set_armed by (done || lia). simpl.
    rewrite lookup_insert_ne; [done|]. intros Heq.
    pose proof (timer_fresh _ (owned_limpiarEntrada k' _ Hown) _ _ Hl). lia.
Qed.

Lemma stays_same k e d st st' :
  cache st' !! k = cache st !! k → clock st ≤ clock st' →
  (∀ tid, timers st !! tid = Some (mkTimer d k) →
          timers st' !! tid = Some (mkTimer d k)) →
  stays_or_reaped k e d st → stays_or_reaped k e d st'.
Proof.
  intros Heq Hclk Htm [[Hs Ht]|(Hn & Hp & Hd)]; [left|right]; rewrite Heq.
  - split; [done|]. intros tid Htid. by apply Htm, Ht.
  - split_and!; [done..|]. lia.
Qed.

Lemma step_stays body k e d w o :
  timers_owned (store w) → keeps k o →
  stays_or_reaped k e d (store w) →
  stays_or_reaped k e d (store (step body w o)).
Proof.
  intros Hown Hkeep Hst.
  pose proof (step_clock body w o) as Hclk.
  destruct o; simpl in *;
    try (by apply (stays_same k e d (store w))).
  - (* set *)
    destruct clave as [| | | |k'| |];
      try (by apply (stays_same k e d (store w))).
    apply (stays_same k e d (store w)); [|done| |done].
    + by apply set_other_key.
    + intros tid Htm. by apply (set_other_timer k).
  - (* get *)
    revert Hclk. rewrite get_eq.
    destruct (lookup_clave clave (store w)) as [e'|] eqn:Hl;
      [case_decide as Hex|]; simpl; intros Hclk;
      try (by apply (stays_same k e d (store w))).
    destruct clave as [| | | |k'| |];
      try (by apply (stays_same k e d (store w))).
    simpl in Hl. destruct (decide (k' = k)) as [->|Hne].
    + destruct Hst as [[Hs _]|[Hn _]]; [|by rewrite Hn in Hl].
      rewrite Hs in Hl. simplify_eq. right. simpl.
      rewrite limpiarEntrada_cache, decide_True by done.
      rewrite limpiarEntrada_clock. destruct Hex.
      split_and!; [done|lia|]. left. lia.
    + apply (stays_same k e d (store w)); [|done| |done]; simpl.
      * by rewrite limpiarEntrada_cache, decide_False.
      * intros tid Htm. by apply (limpiar_other_timer k).
  - (* del *)
    destruct clave as [| | | |k'| |];
      try (by apply (stays_same k e d (store w))).
    simpl in *. destruct (cache (store w) !! k') eqn:Hk';
      [|by apply (stays_same k e d (store w))].
    simpl in *.
    apply (stays_same k e d (store w)); [|done| |done].
    + by rewrite limpiarEntrada_cache, decide_False.
    + intros tid Htm. by apply (limpiar_other_timer k).
  - (* a timer runs *)
    revert Hclk. unfold fire.
    destruct (timers (store w) !! tid) as [tm|] eqn:Htm; [|done].
    case_bool_decide as Hdue; [|done]. simpl. intros _.
    destruct (decide (clave_of tm = k)) as [Hk|Hne].
    + destruct (timer_has_entry _ Hown _ _ Htm) as (v & x & Hv & _).
      pose proof (entry_has_timer _ Hown _ _ Hv) as [_ Hpos]. simpl in Hpos.
      rewrite Hk in Hv.
      destruct Hst as [[Hs Ht]|[Hn _]]; [|by rewrite Hn in Hv].
      rewrite Hs in Hv. simplify_eq. right. simpl.
      rewrite lookup_delete_eq. split_and!; [done..|]. right.
      specialize (Ht tid eq_refl). rewrite Htm in Ht. simplify_eq.
      by rewrite Ht in Hdue.
    + apply (stays_same k e d (store w)); simpl; [|lia| |done].
      * by rewrite lookup_delete_ne.
      * intros tid' Htm'. rewrite lookup_delete_ne; [done|].
        intros <-. rewrite Htm in Htm'. by simplify_eq.
Qed.

Lemma run_stays body k e d ops w :
  timers_owned (store w) → Forall (keeps k) ops →
  stays_or_reaped k e d (store w) →
  stays_or_reaped k e d (store (run body ops w)).
Proof.
  revert w. induction ops as [|o ops IH]; intros w Hown Hk Hst; [done|].
  apply Forall_cons in Hk as [Ho Hk]. simpl.
  apply IH; [by apply owned_step|done|by apply step_stays].
Qed.

Section Delivery.

Import EventBus.
Import CacheManager.

Variable body : nat → list Value → list Action.

(** C9: a subscriber that takes itself out while it is being called (the
    wrapper of [once], or a function calling its own remover) is gone after
    the [emit], and that [emit] has called every subscriber, its siblings
    included, exactly once and in the order of subscription. *)
Theorem self_removal_spares_siblings ev datos b s a :
  listeners b !! ev = Some s → JSSet.wf s →
  (∀ cb, cb ∈ JSSet.values s → self_contained body ev datos cb) →
  a ∈ JSSet.values s → removes_itself body ev datos a →
  ∃ b',
    emit body (VStr ev) datos b = (Normal (), b') ∧
    (a ∉ subscribers ev b') ∧
    dispatched_since b b' = (λ cb, (cb, datos)) <$> JSSet.values s ∧
    ∀ x, x ∈ JSSet.values s →
         times_dispatched x (dispatched_since b b') = 1%nat.
Proof.
  intros Hs Hwf Hsc Hin Hself.
  destruct (emit_visits body ev datos b s Hs Hwf Hsc)
    as (b' & s' & He & Hd & _ & Hs' & _ & Hgone).
  exists b'. unfold subscribers. rewrite Hs'.
  rewrite (dispatched_since_app _ _ _ Hd). split_and!; [done| |done|].
  - by apply Hgone.
  - intros x Hx. by apply times_dispatched_NoDup.
Qed.

(** C5: [emit] returns normally whatever its subscribers do, and so does
    [get]; when no subscriber takes another one out, every subscriber is
    called once, in order, whether or not an earlier one threw, for a plain
    [emit] and for the [cache:hit] of [get]. *)
Theorem subscriber_errors_are_contained :
  (∀ ev datos b, (emit body (VStr ev) datos b).1 = Normal ()) ∧
  (∀ clave w, ∃ v, (get body clave w).1 = Normal v) ∧
  (∀ ev datos b s,
     listeners b !! ev = Some s → JSSet.wf s →
     (∀ cb, cb ∈ JSSet.values s → self_contained body ev datos cb) →
     let b' := (emit body (VStr ev) datos b).2 in
     dispatched_since b b' = (λ cb, (cb, datos)) <$> JSSet.values s ∧
     calls_since b b' = (λ cb, (target cb, datos)) <$> JSSet.values s) ∧
  (∀ k e w s,
     cache (store w) !! k = Some e → ¬ expired e (clock (store w)) →
     listeners (bus w) !! "cache:hit" = Some s → JSSet.wf s →
     (∀ cb, cb ∈ JSSet.values s →
            self_contained body "cache:hit" [VStr k; valor e] cb) →
     let r := get body (VStr k) w in
     r.1 = Normal (valor e) ∧
     calls_since (bus w) (bus r.2) =
       (λ cb, (target cb, [VStr k; valor e])) <$> JSSet.values s).
Proof.
  split_and!.
  - intros. apply emit_returns.
  - intros clave w. rewrite get_eq.
    destruct (lookup_clave clave (store w)); [case_decide|]; simpl; eauto.
  - intros ev datos b s Hs Hwf Hsc.
    destruct (emit_visits body ev datos b s Hs Hwf Hsc)
      as (b' & s' & -> & Hd & Hc & _). simpl.
    by rewrite (dispatched_since_app _ _ _ Hd), (calls_since_app _ _ _ Hc).
  - intros k e w s Hk Hlive Hs Hwf Hsc. rewrite get_eq.
    cbn [lookup_clave]. rewrite Hk, decide_False by done.
    cbn [fst snd bus]. split; [done|].
    destruct (emit_visits body "cache:hit" [VStr k; valor e] (bus w) s
                Hs Hwf Hsc) as (b' & s' & -> & _ & Hc & _).
    cbn [snd]. by rewrite (calls_since_app _ _ _ Hc).
Qed.

End Delivery.

(** ** Reading the cache *)

Section Cache.

Variable body : nat → list Value → list Action.

Lemma get_cases clave w :
  match lookup_clave clave (store w) with
  | Some e =>
      if decide (expired e (clock (store w)))
      then is_miss clave w (get body clave w)
      else is_hit (valor e) clave w (get body clave w)
  | None => is_miss clave w (get body clave w)
  end.
Proof.
  rewrite get_eq.
  destruct (lookup_clave clave (store w)) as [e|]; [case_decide|];
    (split; [done|]); cbn [fst snd bus store]; rewrite emit_emitted;
    try done.
  destruct clave; try done. simpl. by rewrite limpiarEntrada_stats.
Qed.

Lemma get_live k e w :
  cache (store w) !! k = Some e → ¬ expired e (clock (store w)) →
  is_hit (valor e) (VStr k) w (get body (VStr k) w).
Proof.
  intros Hk Hlive. pose proof (get_cases (VStr k) w) as H. simpl in H.
  rewrite Hk in H. by rewrite decide_False in H.
Qed.

Lemma get_expired k e w :
  cache (store w) !! k = Some e → expired e (clock (store w)) →
  is_miss (VStr k) w (get body (VStr k) w).
Proof.
  intros Hk Hex. pose proof (get_cases (VStr k) w) as H. simpl in H.
  rewrite Hk in H. by rewrite decide_True in H.
Qed.

Lemma get_absent k w :
  cache (store w) !! k = None → is_miss (VStr k) w (get body (VStr k) w).
Proof.
  intros Hk. pose proof (get_cases (VStr k) w) as H. simpl in H.
  by rewrite Hk in H.
Qed.

(** The entry that [set] stores, and what becomes of it. *)
Lemma set_entry k v ttl w :
  blank k = false →
  ∃ e, cache (store (set (VStr k) v ttl w).2) !! k = Some e ∧
       valor e = v ∧
       expiracion e =
         (if decide (normalizar_ttl ttl > 0)
          then clock (store w) + normalizar_ttl ttl else 0).
Proof.
  intros Hb. pose proof (normalizar_ttl_nonneg ttl).
  case_decide as Hpos.
  - rewrite set_armed by done. simpl. rewrite lookup_insert_eq.
    eexists. split; [done|]. simpl. by rewrite limpiarEntrada_clock.
  - rewrite set_unarmed by (done || lia). simpl. rewrite lookup_insert_eq.
    by eexists.
Qed.

Lemma set_entry_timer k v ttl w :
  blank k = false →
  ∃ e, cache (store (set (VStr k) v ttl w).2) !! k = Some e ∧
       valor e = v ∧
       expiracion e =
         (if decide (normalizar_ttl ttl > 0)
          then clock (store w) + normalizar_ttl ttl else 0) ∧
       ∀ tid, timeoutId e = Some tid →
         timers (store (set (VStr k) v ttl w).2) !! tid =
         Some (mkTimer (clock (store w) + host_delay (normalizar_ttl ttl)) k).
Proof.
  intros Hb. pose proof (normalizar_ttl_nonneg ttl).
  case_decide as Hpos.
  - rewrite set_armed by done. simpl. rewrite lookup_insert_eq.
    eexists. split_and!; [done|done|simpl; by rewrite limpiarEntrada_clock|].
    simpl. intros tid [= <-]. rewrite lookup_insert_eq.
    by rewrite limpiarEntrada_clock.
  - rewrite set_unarmed by (done || lia). simpl. rewrite lookup_insert_eq.
    eexists. by split_and!.
Qed.

Lemma set_then_later k v ttl w ops :
  timers_owned (store w) → blank k = false → Forall (keeps k) ops →
  let w1 := (set (VStr k) v ttl w).2 in
  ∃ e, valor e = v ∧
       expiracion e =
         (if decide (normalizar_ttl ttl > 0)
          then clock (store w) + normalizar_ttl ttl else 0) ∧
       stays_or_reaped k e
         (clock (store w) + host_delay (normalizar_ttl ttl))
         (store (run body ops w1)) ∧
       clock (store w) ≤ clock (store (run body ops w1)).
Proof.
  intros Hown Hb Hops. cbv zeta.
  destruct (set_entry_timer k v ttl w Hb) as (e & He & Hv & Hx & Ht).
  exists e. split_and!; [done..| |].
  - apply run_stays; [by apply owned_set|done|by left].
  - etrans; [|apply run_clock]. by rewrite set_clock.
Qed.

(** Before the expiry the entry is read, when the TTL is one the host's
    timer takes as it is. *)
Lemma get_before_expiry k v ttl w ops :
  timers_owned (store w) → blank k = false → Forall (keeps k) ops →
  let w2 := run body ops (set (VStr k) v ttl w).2 in
  0 < normalizar_ttl ttl ≤ max_delay →
  clock (store w2) < clock (store w) + normalizar_ttl ttl →
  is_hit v (VStr k) w2 (get body (VStr k) w2).
Proof.
  intros Hown Hb Hops w2 Hpos Hnow.
  destruct (set_then_later k v ttl w ops Hown Hb Hops)
    as (e & <- & Hx & Hst & _).
  rewrite decide_True in Hx by lia. fold w2 in Hst.
  rewrite host_delay_in_range in Hst by lia.
  destruct Hst as [[Hs _]|(_ & _ & Hd)]; [|lia].
  apply get_live; [done|]. unfold expired. lia.
Qed.


Lemma get_never_expiring k v ttl w ops :
  timers_owned (store w) → blank k = false → Forall (keeps k) ops →
  let w2 := run body ops (set (VStr k) v ttl w).2 in
  normalizar_ttl ttl = 0 →
  is_hit v (VStr k) w2 (get body (VStr k) w2).
Proof.
  intros Hown Hb Hops w2 Hz.
  destruct (set_then_later k v ttl w ops Hown Hb Hops)
    as (e & <- & Hx & Hst & _).
  rewrite decide_False in Hx by lia. fold w2 in Hst.
  destruct Hst as [[Hs _]|(_ & Hd & _)]; [|lia].
  apply get_live; [done|]. unfold expired. lia.
Qed.

End Cache.

Section CacheClaims.

Variable body : nat → list Value → list Action.

(** C1: at the instant [setTime + T] itself, with the timer not yet run, [get]
    finds the entry, tests [expiracion < ahora] and counts a hit; once the
    timer has run at that same instant, [get] counts a miss. *)
Theorem get_at_the_expiry_instant_is_a_hit k v d w :
  blank k = false → (0 < d)%nat →
  let w1 := (set (VStr k) v (VNum (Z.of_nat d)) w).2 in
  let w2 := tick d w1 in
  let w3 := fire (next_timer (store w)) w2 in
  clock (store w2) = clock (store w) + Z.of_nat d ∧
  is_hit v (VStr k) w2 (get body (VStr k) w2) ∧
  is_miss (VStr k) w3 (get body (VStr k) w3).
Proof.
  intros Hb Hd.
  assert (normalizar_ttl (VNum (Z.of_nat d)) = Z.of_nat d) as Hn.
  { simpl. rewrite bool_decide_false; [done|lia]. }
  rewrite set_armed by (done || lia). rewrite Hn. cbn [snd].
  rewrite limpiarEntrada_clock, limpiarEntrada_next_timer.
  pose proof (host_delay_bounds (Z.of_nat d)) as Hdelay.
  set (delay := host_delay (Z.of_nat d)) in *.
  cbv zeta. split_and!.
  - done.
  - apply (get_live body k
             (mkEntrada v (clock (store w) + Z.of_nat d)
                (Some (next_timer (store w))))).
    + simpl. apply lookup_insert_eq.
    + unfold expired. simpl. lia.
  - apply get_absent. unfold fire. simpl. rewrite lookup_insert_eq. simpl.
    rewrite bool_decide_true by lia. simpl. apply lookup_delete_eq.
Qed.

(** C2: in every execution there is at most one pending timer per key;
    [set], [del] and [clear] cancel the timer of the entry they remove; and
    after [set(k, v1, 1000)] and [set(k, v2, 5000)], whatever timers run,
    a [get(k)] before 5000 ms have passed returns [v2]. *)
Theorem no_orphan_timers w :
  reachable body w →
  one_timer_per_key (store w) ∧
  (∀ k e tid,
     cache (store w) !! k = Some e → timeoutId e = Some tid →
     (∀ valor ttl, blank k = false →
        timers (store (set (VStr k) valor ttl w).2) !! tid = None) ∧
     timers (store (del (VStr k) w).2) !! tid = None ∧
     timers (store (clear w)) !! tid = None) ∧
  (∀ k v1 v2 ops,
     blank k = false → Forall (keeps k) ops →
     let w1 := (set (VStr k) v1 (VNum 1000) w).2 in
     let w2 := (set (VStr k) v2 (VNum 5000) w1).2 in
     let w3 := run body ops w2 in
     one_timer_per_key (store w3) ∧
     (clock (store w3) < clock (store w) + 5000 →
      is_hit v2 (VStr k) w3 (get body (VStr k) w3))).
Proof.
  intros Hreach. pose proof (owned_reachable body w Hreach) as Hown.
  split_and!.
  - by apply owned_one_timer.
  - intros k e tid Hk Htid.
    pose proof (entry_has_timer _ Hown _ _ Hk) as Ht. rewrite Htid in Ht.
    destruct Ht as [[d Ht] _].
    assert (timers (limpiarEntrada k (store w)) !! tid = None) as Hgone.
    { rewrite limpiarEntrada_timers, Hk. simpl. rewrite Htid.
      by rewrite decide_True. }
    split_and!.
    + intros valor ttl Hb. pose proof (normalizar_ttl_nonneg ttl).
      destruct (decide (normalizar_ttl ttl = 0)).
      * by rewrite set_unarmed.
      * rewrite set_armed by (done || lia). simpl.
        rewrite lookup_insert_ne; [done|].
        rewrite limpiarEntrada_next_timer.
        apply (timer_fresh _ Hown) in Ht. lia.
    + simpl. by rewrite Hk.
    + by apply clear_timers.
  - intros k v1 v2 ops Hb Hops w1 w2 w3.
    assert (timers_owned (store w1)) as Hown1 by by apply owned_set.
    split.
    + apply owned_one_timer, owned_run. by apply owned_set.
    + intros Hnow.
      apply (get_before_expiry body k v2 (VNum 5000) w1 ops); try done.
      fold w2. fold w3. unfold w1. rewrite set_clock. simpl. lia.
Qed.

(** C7: a new store has both counters at 0; a [get] that finds a live
    entry returns its value and adds one to [hits] only; any other [get]
    returns null and adds one to [misses] only; [del] reports whether the key
    was there and touches neither the counters nor the bus; [clear] puts
    both counters back to 0. *)
Theorem hit_miss_accounting :
  (∀ now, stats (store (initial now)) = mkStats 0 0) ∧
  (∀ clave w,
     match lookup_clave clave (store w) with
     | Some e =>
         if decide (expired e (clock (store w)))
         then is_miss clave w (get body clave w)
         else is_hit (valor e) clave w (get body clave w)
     | None => is_miss clave w (get body clave w)
     end) ∧
  (∀ clave w,
     (del clave w).1 = bool_decide (is_Some (lookup_clave clave (store w))) ∧
     stats (store (del clave w).2) = stats (store w) ∧
     bus (del clave w).2 = bus w) ∧
  (∀ w, stats (store (clear w)) = mkStats 0 0).
Proof.
  split_and!.
  - done.
  - apply get_cases.
  - intros clave w. destruct clave as [| | | |k| |]; try done.
    simpl. destruct (cache (store w) !! k) as [e|] eqn:Hk; simpl; [|done].
    by rewrite limpiarEntrada_stats.
  - done.
Qed.

(** C10: a stored null reads as null on a hit, and a miss reads as null
    too; they differ in the counter that moves and in the event emitted. *)
Theorem stored_null_reads_like_a_miss k k' w :
  blank k = false →
  let w1 := (set (VStr k) VNull (VNum 0) w).2 in
  cache (store w1) !! k' = None →
  is_hit VNull (VStr k) w1 (get body (VStr k) w1) ∧
  is_miss (VStr k') w1 (get body (VStr k') w1) ∧
  (get body (VStr k) w1).1 = (get body (VStr k') w1).1.
Proof.
  intros Hb w1 Hk'.
  assert (is_hit VNull (VStr k) w1 (get body (VStr k) w1)) as Hhit.
  { unfold w1. rewrite set_unarmed by done. cbn [snd].
    apply (get_live body k (mkEntrada VNull 0 None)).
    - simpl. apply lookup_insert_eq.
    - unfold expired. simpl. lia. }
  pose proof (get_absent body k' w1 Hk') as Hmiss.
  split_and!; [done..|].
  destruct Hhit as [-> _], Hmiss as [-> _]. done.
Qed.

End CacheClaims.

Lemma normalizar_ttl_rejected ttl :
  ¬ non_negative_number ttl → normalizar_ttl ttl = 0.
Proof.
  intros Hn. destruct ttl as [| | |n| | |]; try done. simpl.
  case_bool_decide; [done|]. exfalso. apply Hn. exists n. split; [done|lia].
Qed.

Lemma set_normalizes clave valor ttl w :
  ¬ non_negative_number ttl →
  set clave valor ttl w = set clave valor (VNum 0) w.
Proof.
  intros Hn. unfold set. by rewrite (normalizar_ttl_rejected ttl Hn).
Qed.

Section KeysAndTtl.

Variable body : nat → list Value → list Action.

(** C8, as amended: [set] throws exactly when the key is not a string or
    is blank (empty once trimmed), and then changes nothing; a TTL that is
    not a non-negative number is taken as 0: no timer is armed and every
    later [get] of the key is a hit with the stored value. *)
Theorem set_rejects_blank_keys_and_normalizes_ttl :
  (∀ clave valor ttl w,
     ((set clave valor ttl w).1 = Normal () ↔ clave_valida clave) ∧
     (¬ clave_valida clave → set clave valor ttl w = (Throw ErrClave, w))) ∧
  (∀ clave valor ttl w,
     ¬ non_negative_number ttl →
     set clave valor ttl w = set clave valor (VNum 0) w) ∧
  (∀ k valor ttl w ops,
     reachable body w → blank k = false → ¬ non_negative_number ttl →
     Forall (keeps k) ops →
     let w1 := (set (VStr k) valor ttl w).2 in
     let w2 := run body ops w1 in
     next_timer (store w1) = next_timer (store w) ∧
     (∀ tid tm, timers (store w1) !! tid = Some tm →
                timers (store w) !! tid = Some tm ∧ clave_of tm ≠ k) ∧
     is_hit valor (VStr k) w2 (get body (VStr k) w2)).
Proof.
  split_and!.
  - intros clave valor ttl w.
    destruct clave as [| | | |k| |]; try (by split; [split|]).
    simpl. destruct (blank k) eqn:Hb.
    + split; [by split|done].
    + split; [|done]. split; [done|]. intros _. by case_bool_decide.
  - apply set_normalizes.
  - intros k valor ttl w ops Hreach Hb Httl Hops w1 w2.
    pose proof (owned_reachable body w Hreach) as Hown.
    pose proof (normalizar_ttl_rejected ttl Httl) as Hz.
    split_and!.
    + unfold w1. rewrite set_unarmed by done. simpl.
      apply limpiarEntrada_next_timer.
    + intros tid tm Htm.
      pose proof (owned_set (VStr k) valor ttl w Hown) as Hown1.
      destruct (timer_has_entry _ Hown1 _ _ Htm) as (v & x & Hv & _).
      revert Htm Hv. unfold w1. rewrite set_unarmed by done. simpl.
      rewrite limpiarEntrada_timers. intros Htm Hv. split.
      * destruct (cache (store w) !! k ≫= timeoutId); [case_decide|]; done.
      * intros Hk. rewrite Hk, lookup_insert_eq in Hv. by simplify_eq.
    + by apply get_never_expiring.
Qed.

End KeysAndTtl.

(** C8 as stated fails: the key [" "] is a string and is not empty, yet
    [set] throws, because the test is on [clave.trim()]. *)
Lemma set_blank_key_counterexample :
  (set (VStr " ") (VStr "v") (VNum 0) (initial 0)).1 = Throw ErrClave ∧
  typeof (VStr " ") = TString ∧ String.length " " = 1%nat.
Proof. split; [reflexivity|]. split; reflexivity. Qed.

Lemma set_rejects_blank_keys_and_normalizes_ttl_witness :
  let w1 := (set (VStr "k") (VStr "v") (VNum (-5)) (initial 0)).2 in
  let w2 := run idle [OTick 1000; OFire 0; OGet (VStr "k")] w1 in
  next_timer (store w1) = next_timer (store (initial 0)) ∧
  (∀ tid tm, timers (store w1) !! tid = Some tm →
             timers (store (initial 0)) !! tid = Some tm ∧
             clave_of tm ≠ "k"%string) ∧
  is_hit (VStr "v") (VStr "k") w2 (get idle (VStr "k") w2).
Proof.
  destruct (set_rejects_blank_keys_and_normalizes_ttl idle) as (_ & _ & H).
  apply (H "k"%string (VStr "v") (VNum (-5)) (initial 0)
           [OTick 1000; OFire 0; OGet (VStr "k")]).
  - exists 0, []. split; [lia|reflexivity].
  - reflexivity.
  - intros (n & [= <-] & Hn). lia.
  - repeat constructor.
Defined.

Lemma get_at_the_expiry_instant_is_a_hit_witness :
  let w := initial 0 in
  let w1 := (set (VStr "k") (VStr "v") (VNum (Z.of_nat 5)) w).2 in
  let w2 := tick 5 w1 in
  let w3 := fire (next_timer (store w)) w2 in
  clock (store w2) = clock (store w) + Z.of_nat 5 ∧
  is_hit (VStr "v") (VStr "k") w2 (get idle (VStr "k") w2) ∧
  is_miss (VStr "k") w3 (get idle (VStr "k") w3).
Proof.
  apply (get_at_the_expiry_instant_is_a_hit idle "k" (VStr "v") 5 (initial 0)).
  - reflexivity.
  - lia.
Defined.

Lemma no_orphan_timers_witness :
  let w1 := (set (VStr "k") (VStr "v1") (VNum 1000) (initial 0)).2 in
  let w2 := (set (VStr "k") (VStr "v2") (VNum 5000) w1).2 in
  let w3 := run idle [OTick 1000; OFire 0; OTick 500] w2 in
  is_hit (VStr "v2") (VStr "k") w3 (get idle (VStr "k") w3).
Proof.
  destruct (no_orphan_timers idle (initial 0)) as (_ & _ & H).
  - exists 0, []. split; [lia|reflexivity].
  - destruct (H "k"%string (VStr "v1") (VStr "v2")
                [OTick 1000; OFire 0; OTick 500]) as [_ Hhit].
    + reflexivity.
    + repeat constructor.
    + apply Hhit. vm_compute. reflexivity.
Defined.

Lemma stored_null_reads_like_a_miss_witness :
  let w1 := (set (VStr "k") VNull (VNum 0) (initial 0)).2 in
  is_hit VNull (VStr "k") w1 (get idle (VStr "k") w1) ∧
  is_miss (VStr "otra") w1 (get idle (VStr "otra") w1) ∧
  (get idle (VStr "k") w1).1 = (get idle (VStr "otra") w1).1.
Proof.
  apply (stored_null_reads_like_a_miss idle "k" "otra" (initial 0)).
  - reflexivity.
  - reflexivity.
Defined.

Section Scenarios.

Import EventBus.
Import CacheManager.

Lemma self_removal_spares_siblings_witness :
  ∃ b',
    emit idle (VStr "e") [VNum 7] once_then_on = (Normal (), b') ∧
    (OnceFn 0 "e" (UserFn 0) ∉ subscribers "e" b') ∧
    dispatched_since once_then_on b' =
      (λ cb, (cb, [VNum 7])) <$>
        JSSet.values [Some (OnceFn 0 "e" (UserFn 0)); Some (UserFn 1)] ∧
    ∀ x, x ∈ JSSet.values [Some (OnceFn 0 "e" (UserFn 0)); Some (UserFn 1)] →
         times_dispatched x (dispatched_since once_then_on b') = 1%nat.
Proof.
  apply (self_removal_spares_siblings idle "e" [VNum 7] once_then_on
           [Some (OnceFn 0 "e" (UserFn 0)); Some (UserFn 1)]
           (OnceFn 0 "e" (UserFn 0))).
  - reflexivity.
  - apply (bool_decide_unpack _). vm_compute. exact I.
  - intros cb Hcb. simpl in Hcb.
    repeat (apply elem_of_cons in Hcb as [->|Hcb]); simpl;
      [constructor..|by apply elem_of_nil in Hcb].
  - simpl. apply elem_of_cons. by left.
  - simpl. split; [reflexivity|constructor].
Defined.

Lemma subscriber_errors_are_contained_witness :
  let r := get first_throws (VStr "k") two_hit_listeners in
  r.1 = Normal (VStr "v") ∧
  calls_since (bus two_hit_listeners) (bus r.2) =
    (λ cb, (target cb, [VStr "k"; VStr "v"])) <$>
      JSSet.values [Some (UserFn 0); Some (UserFn 1)].
Proof.
  destruct (subscriber_errors_are_contained first_throws) as (_ & _ & _ & H).
  apply (H "k" (mkEntrada (VStr "v") 0 None) two_hit_listeners
           [Some (UserFn 0); Some (UserFn 1)]).
  - reflexivity.
  - unfold expired. simpl. lia.
  - reflexivity.
  - apply (bool_decide_unpack _). vm_compute. exact I.
  - intros cb Hcb. simpl in Hcb.
    repeat (apply elem_of_cons in Hcb as [->|Hcb]); simpl;
      [repeat constructor..|by apply elem_of_nil in Hcb].
Defined.

(** The same with a function that calls its own remover, and what the
    console shows when the first subscriber of [cache:hit] throws. *)
Example own_remover_example :
  let b1 := (on (VStr "e") (VFun (UserFn 0)) EventBus.initial).2 in
  let b2 := (on (VStr "e") (VFun (UserFn 1)) b1).2 in
  let b3 := (emit first_unsubscribes (VStr "e") [VNum 7] b2).2 in
  dispatched b3 = [(UserFn 0, [VNum 7]); (UserFn 1, [VNum 7])] ∧
  subscribers "e" b3 = [UserFn 1].
Proof. split; reflexivity. Qed.

Example throwing_subscriber_example :
  let r := get first_throws (VStr "k") two_hit_listeners in
  r.1 = Normal (VStr "v") ∧
  calls (bus r.2) =
    [(0%nat, [VStr "k"; VStr "v"]); (1%nat, [VStr "k"; VStr "v"])] ∧
  console_error (bus r.2) = [("cache:hit"%string, Thrown)] ∧
  stats (store r.2) = mkStats 1 0.
Proof. repeat split; reflexivity. Qed.



(** C6: [once] with a function that throws.  The wrapper runs
    [callback(...datos)] before [remover()], the throw skips the remover,
    and the second [emit] calls the function again. *)
Theorem once_callback_that_throws_runs_again x1 x2 :
  let b1 := (once (VStr "e") (VFun (UserFn 0)) EventBus.initial).2 in
  let b2 := (emit first_throws (VStr "e") x1 b1).2 in
  let b3 := (emit first_throws (VStr "e") x2 b2).2 in
  calls b3 = [(0%nat, x1); (0%nat, x2)] ∧
  subscribers "e" b3 = [OnceFn 0 "e" (UserFn 0)].
Proof. split; reflexivity. Qed.

End Scenarios.

Section Once.

Import EventBus.
Import CacheManager.

Variable body : nat → list Value → list Action.

Lemma once_eq ev cb b :
  once (VStr ev) (VFun cb) b =
  if blank ev then (Throw ErrNombreEvento, b)
  else
    (Normal (),
     with_listeners
       (<[ev := JSSet.add (default JSSet.empty (listeners b !! ev))
                  (OnceFn (next_fn b) ev cb)]> (listeners b))
       (fresh_fn b)).
Proof.
  unfold once, validarTipo. destruct (blank ev) eqn:Hb; [done|].
  by rewrite on_eq, Hb.
Qed.

(** What [once] does deliver once: a function that returns and leaves the
    subscribers of the event alone, subscribed to an event that has no
    other subscriber, runs at the first [emit] only, and its wrapper is
    gone afterwards. *)
Lemma once_delivers_once ev id b x1 x2 :
  blank ev = false → listeners b !! ev = None →
  Forall (returning_action ev) (body id x1) →
  Forall (quiet_action ev) (body id x1) →
  let b1 := (once (VStr ev) (VFun (UserFn id)) b).2 in
  let b2 := (emit body (VStr ev) x1 b1).2 in
  let b3 := (emit body (VStr ev) x2 b2).2 in
  calls_since b b3 = [(id, x1)] ∧
  subscribers ev b2 = [] ∧ subscribers ev b3 = [].
Proof.
  intros Hb Hnone Hret Hq. rewrite once_eq, Hb, Hnone. cbn [snd default].
  set (W := OnceFn (next_fn b) ev (UserFn id)).
  set (b1 := with_listeners _ _).
  assert (listeners b1 !! ev = Some [Some W]) as Hl1
    by (simpl; apply lookup_insert_eq).
  destruct (emit_visits body ev x1 b1 [Some W] Hl1)
    as (b2 & s2 & -> & _ & Hc2 & Hl2 & Hsub2 & Hgone).
  { apply NoDup_singleton. }
  { intros cb [->|Hcb%elem_of_nil]%elem_of_cons; done. }
  assert (JSSet.values s2 = []) as Hv2.
  { destruct (JSSet.values s2) as [|x l] eqn:E; [done|]. exfalso.
    assert (x ∈ [W]) as ->%list_elem_of_singleton.
    { eapply elem_of_sublist; [|exact Hsub2]. apply elem_of_cons. by left. }
    apply (Hgone W); [apply elem_of_cons; by left|done|].
    apply elem_of_cons. by left. }
  cbn [snd].
  destruct (emit_visits body ev x2 b2 s2 Hl2)
    as (b3 & s3 & -> & _ & Hc3 & Hl3 & Hsub3 & _).
  { unfold JSSet.wf. rewrite Hv2. apply NoDup_nil_2. }
  { intros cb. rewrite Hv2. by intros ?%elem_of_nil. }
  cbn [snd]. unfold subscribers. rewrite Hl2, Hl3, Hv2.
  rewrite Hv2 in Hsub3, Hc3. apply sublist_nil_r in Hsub3.
  split_and!; [|done..].
  apply calls_since_app. rewrite Hc3, Hc2. simpl. by rewrite app_nil_r.
Qed.

End Once.

(** * Further properties of the bus *)

Section BusEdges.

Import EventBus.

Variable body : nat → list Value → list Action.

Lemma validarTipo_cases evento callback :
  match validarTipo evento callback with
  | Normal (ev, cb) =>
      evento = VStr ev ∧ callback = VFun cb ∧ blank ev = false
  | Throw e =>
      (e = ErrNombreEvento ∧ ¬ nombre_valido evento) ∨
      (e = ErrCallback ∧ nombre_valido evento ∧ typeof callback ≠ TFunction)
  end.
Proof.
  destruct evento as [| | | |ev| |]; simpl; try (left; by auto).
  destruct (blank ev) eqn:Hb; [left; split; [done|congruence]|].
  destruct callback; simpl; try (right; by auto). done.
Qed.

(** X1: [on] and [once] validate alike and check the name first: a name
    that is not a non-blank string gives the name error whatever the
    callback is, a good name with a callback that is not a function gives
    the callback error, and in both cases the bus is left as it was;
    otherwise both succeed. *)
Theorem on_and_once_validate_alike evento callback b :
  (¬ nombre_valido evento →
     on evento callback b = (Throw ErrNombreEvento, b) ∧
     once evento callback b = (Throw ErrNombreEvento, b)) ∧
  (nombre_valido evento → typeof callback ≠ TFunction →
     on evento callback b = (Throw ErrCallback, b) ∧
     once evento callback b = (Throw ErrCallback, b)) ∧
  (nombre_valido evento → typeof callback = TFunction →
     (∃ r b1, on evento callback b = (Normal r, b1)) ∧
     (∃ b2, once evento callback b = (Normal (), b2))).
Proof.
  pose proof (validarTipo_cases evento callback) as Hv.
  unfold on, once.
  destruct (validarTipo evento callback) as [[ev cb]|e] eqn:Hval.
  - destruct Hv as (-> & -> & Hb). split_and!.
    + intros Hbad. by destruct Hbad.
    + intros _ Hf. by destruct Hf.
    + intros _ _. split; [by eauto|].
      change (match validarTipo (VStr ev) (VFun (OnceFn (next_fn b) ev cb))
              with
              | Normal (ev0, cb0) => _
              | Throw e => _
              end) with (on (VStr ev) (VFun (OnceFn (next_fn b) ev cb))
                           (fresh_fn b)).
      rewrite on_eq, Hb. by eauto.
  - destruct Hv as [[-> Hbad]|(-> & Hgood & Hf)]; split_and!; try done.
    all: try (intros Hbad'; by destruct Hbad').
    all: try (intros _ Hf'; by destruct Hf).
Qed.

End BusEdges.

Section BusRegistry.

Import EventBus.

Variable body : nat → list Value → list Action.

Lemma filter_all_ne (l : list Callback) cb :
  cb ∉ l → filter (λ x, x ≠ cb) l = l.
Proof.
  induction l as [|x l IH]; intros Hin; [done|].
  apply not_elem_of_cons in Hin as [Hne Hin].
  rewrite filter_cons_True by done. by rewrite IH.
Qed.

Lemma values_delete s cb :
  JSSet.wf s →
  JSSet.values (JSSet.delete s cb) = filter (λ x, x ≠ cb) (JSSet.values s).
Proof.
  unfold JSSet.wf, JSSet.values.
  induction s as [|[x|] s IH]; simpl; intros Hwf; [done| |by apply IH].
  apply NoDup_cons in Hwf as [Hx Hwf]. case_decide as Hxc.
  - subst x. rewrite filter_cons_False by (by intros H).
    rewrite filter_all_ne by done. reflexivity.
  - rewrite filter_cons_True by done.
    change (x :: omap id (JSSet.delete s cb) =
            x :: filter (λ x0, x0 ≠ cb) (omap id s)).
    f_equal. by apply IH.
Qed.

Lemma subscribers_with ev ev' s b :
  subscribers ev' (with_listeners (<[ev := s]> (listeners b)) b) =
  if decide (ev = ev') then JSSet.values s else subscribers ev' b.
Proof.
  unfold subscribers. simpl. rewrite lookup_insert.
  by case_decide.
Qed.

Lemma off_unsubscribed ev cb b :
  cb ∉ subscribers ev b → off (VStr ev) (VFun cb) b = b.
Proof.
  unfold subscribers, off. destruct (listeners b !! ev) as [s|] eqn:Hs;
    [|done].
  intros Hin. rewrite delete_absent by (by rewrite <- values_elem_of).
  rewrite insert_id by done. apply with_listeners_same.
Qed.

(** What [debug] shows of an event: the size of its set, and nothing for
    the key ["__proto__"]. *)
Lemma debug_lookup ev b :
  debug b !! ev =
  if decide (ev = "__proto__"%string) then None
  else JSSet.size <$> listeners b !! ev.
Proof.
  unfold debug. rewrite lookup_delete. case_decide as H1; case_decide as H2;
    try done; try congruence.
  apply lookup_fmap.
Qed.

Lemma on_appends ev cb b :
  blank ev = false → cb ∉ subscribers ev b →
  let b1 := (on (VStr ev) (VFun cb) b).2 in
  subscribers ev b1 = subscribers ev b ++ [cb] ∧
  (∀ ev', ev' ≠ ev → listeners b1 !! ev' = listeners b !! ev') ∧
  debug b1 !! ev =
    (if decide (ev = "__proto__"%string) then None
     else Some (S (length (subscribers ev b)))).
Proof.
  intros Hb Hin. rewrite on_eq, Hb. cbn [snd].
  assert (JSSet.values
            (JSSet.add (default JSSet.empty (listeners b !! ev)) cb) =
          subscribers ev b ++ [cb]) as Hv.
  { rewrite values_add. unfold subscribers in *.
    destruct (listeners b !! ev) as [s|]; simpl; [|done].
    by rewrite decide_False. }
  split_and!.
  - by rewrite subscribers_with, decide_True.
  - intros ev' Hne. simpl. by rewrite lookup_insert_ne.
  - rewrite debug_lookup. case_decide; [done|]. simpl.
    rewrite lookup_insert_eq. simpl.
    unfold JSSet.size. rewrite Hv, length_app. simpl. f_equal. lia.
Qed.

Lemma off_effect evento callback b :
  (typeof evento ≠ TString ∨ typeof callback ≠ TFunction →
     off evento callback b = b) ∧
  (∀ ev cb, evento = VStr ev → callback = VFun cb →
     (cb ∉ subscribers ev b → off evento callback b = b) ∧
     (∀ ev', ev' ≠ ev →
        listeners (off evento callback b) !! ev' = listeners b !! ev') ∧
     (∀ s, listeners b !! ev = Some s → JSSet.wf s →
        subscribers ev (off evento callback b) =
          filter (λ x, x ≠ cb) (subscribers ev b) ∧
        remover (mkRemover ev cb) b = (Normal (), off evento callback b))).
Proof.
  split.
  - intros [H|H]; destruct evento; try done; destruct callback; done.
  - intros ev cb -> ->. split_and!.
    + apply off_unsubscribed.
    + intros ev' Hne. unfold off. destruct (listeners b !! ev); [|done].
      simpl. by rewrite lookup_insert_ne.
    + intros s Hs Hwf. rewrite (off_same ev cb b s Hs).
      rewrite (remover_same ev cb b s Hs). split; [|done].
      rewrite subscribers_with, decide_True by done.
      unfold subscribers. rewrite Hs. by apply values_delete.
Qed.

(** X2: a function that is not yet subscribed to the event goes to the end
    of its subscribers, the other events keep theirs, and [debug] counts
    one more; only the event named ["__proto__"] never shows in [debug]. *)
Theorem on_subscribes_last ev cb b :
  blank ev = false → cb ∉ subscribers ev b →
  let b1 := (on (VStr ev) (VFun cb) b).2 in
  subscribers ev b1 = subscribers ev b ++ [cb] ∧
  (∀ ev', ev' ≠ ev → listeners b1 !! ev' = listeners b !! ev') ∧
  debug b1 !! ev =
    (if decide (ev = "__proto__"%string) then None
     else Some (S (length (subscribers ev b)))).
Proof. exact (on_appends ev cb b). Qed.

(** X3: [off] is a no-op when the name is not a string, the callback is
    not a function, the event is unknown or the function is not subscribed
    to it; otherwise it takes that function out and keeps the others in
    their order, and touches no other event.  Where the event has its
    set, the remover that [on] returned does exactly what [off] does. *)
Theorem off_removes_only_that_function evento callback b :
  (typeof evento ≠ TString ∨ typeof callback ≠ TFunction →
     off evento callback b = b) ∧
  (∀ ev cb, evento = VStr ev → callback = VFun cb →
     (cb ∉ subscribers ev b → off evento callback b = b) ∧
     (∀ ev', ev' ≠ ev →
        listeners (off evento callback b) !! ev' = listeners b !! ev') ∧
     (∀ s, listeners b !! ev = Some s → JSSet.wf s →
        subscribers ev (off evento callback b) =
          filter (λ x, x ≠ cb) (subscribers ev b) ∧
        remover (mkRemover ev cb) b = (Normal (), off evento callback b))).
Proof. exact (off_effect evento callback b). Qed.

(** X4: subscribing a function that was not subscribed and unsubscribing
    it again, by [off] or by the remover, gives back the subscribers of
    every event; but the event itself stays known: [debug] lists it, with
    0 when it had no subscriber before (the event named ["__proto__"]
    apart, which [debug] never shows). *)
Theorem on_then_off_round_trip ev cb b :
  blank ev = false → cb ∉ subscribers ev b →
  (∀ s, listeners b !! ev = Some s → JSSet.wf s) →
  let b1 := (on (VStr ev) (VFun cb) b).2 in
  let b2 := off (VStr ev) (VFun cb) b1 in
  (∀ r, (on (VStr ev) (VFun cb) b).1 = Normal r →
        remover r b1 = (Normal (), b2)) ∧
  (∀ ev', subscribers ev' b2 = subscribers ev' b) ∧
  debug b2 !! ev =
    (if decide (ev = "__proto__"%string) then None
     else Some (length (subscribers ev b))).
Proof.
  intros Hb Hin Hwf.
  destruct (on_appends ev cb b Hb Hin) as (Hsub & Hother & _).
  revert Hsub Hother. rewrite on_eq, Hb. cbn [fst snd].
  set (s1 := JSSet.add (default JSSet.empty (listeners b !! ev)) cb).
  set (b1 := with_listeners _ b). intros Hsub Hother.
  assert (listeners b1 !! ev = Some s1) as Hl1
    by (simpl; apply lookup_insert_eq).
  assert (JSSet.wf s1) as Hwf1.
  { apply wf_add. destruct (listeners b !! ev) as [s|] eqn:E; simpl;
      [by apply Hwf|apply NoDup_nil_2]. }
  destruct (off_effect (VStr ev) (VFun cb) b1)
    as [_ Hoff].
  destruct (Hoff ev cb eq_refl eq_refl) as (_ & Hoth & Hsame).
  destruct (Hsame s1 Hl1 Hwf1) as [Hsubs Hrem].
  assert (subscribers ev (off (VStr ev) (VFun cb) b1) = subscribers ev b)
    as Hback.
  { rewrite Hsubs, Hsub, filter_app, filter_all_ne by done.
    rewrite filter_cons_False by (by intros H). by rewrite app_nil_r. }
  split_and!.
  - intros r [= <-]. exact Hrem.
  - intros ev'. destruct (decide (ev' = ev)) as [->|Hne]; [done|].
    unfold subscribers. by rewrite Hoth, Hother.
  - rewrite <- Hback. rewrite debug_lookup. case_decide; [done|].
    rewrite (off_same ev cb b1 s1 Hl1). simpl. rewrite lookup_insert_eq.
    simpl. unfold subscribers. simpl. by rewrite lookup_insert_eq.
Qed.

End BusRegistry.

Section BusEmitEdges.

Import EventBus.

Variable body : nat → list Value → list Action.

Lemma forEach_no_subscriber ev datos s n idx b :
  listeners b !! ev = Some s → JSSet.values s = [] →
  forEach body ev datos n idx b = b.
Proof.
  intros Hs Hv. revert idx. induction n as [|n IH]; intros idx; [done|].
  cbn [forEach]. rewrite Hs. simpl.
  destruct (s !! idx) as [[cb|]|] eqn:Hi; try apply IH.
  apply values_lookup in Hi. rewrite Hv in Hi. by apply elem_of_nil in Hi.
Qed.

(** X5: [emit] throws exactly when the name is not a string, and then
    leaves the bus as it was; for a string it returns normally, and when
    the event has no subscriber (it is unknown, or all its subscribers
    were removed) nothing is called, logged or changed. *)
Theorem emit_edge_cases evento datos b :
  (typeof evento ≠ TString →
     emit body evento datos b = (Throw ErrNombreEventoEmit, b)) ∧
  (∀ ev, evento = VStr ev →
     (emit body evento datos b).1 = Normal () ∧
     (subscribers ev b = [] →
      let b' := (emit body evento datos b).2 in
      listeners b' = listeners b ∧ calls b' = calls b ∧
      dispatched b' = dispatched b ∧
      console_error b' = console_error b)).
Proof.
  split.
  - intros H. by destruct evento.
  - intros ev ->. split; [apply emit_returns|].
    unfold subscribers, emit. simpl.
    destruct (listeners b !! ev) as [s|] eqn:Hs; [|done].
    intros Hv. simpl.
    by rewrite (forEach_no_subscriber ev datos s).
Qed.

(** X6: [clear] forgets every subscription: no event has a subscriber,
    [debug] is empty, an [emit] calls nobody, and an [on] that follows
    starts the event with that one subscriber. *)
Theorem clear_forgets_every_subscription ev datos cb b :
  subscribers ev (clear b) = [] ∧
  debug (clear b) = ∅ ∧
  calls (emit body (VStr ev) datos (clear b)).2 = calls b ∧
  (blank ev = false →
   subscribers ev (on (VStr ev) (VFun cb) (clear b)).2 = [cb]).
Proof.
  split_and!.
  - unfold subscribers, clear. simpl. by rewrite lookup_empty.
  - unfold debug, clear. simpl. rewrite fmap_empty. apply delete_empty.
  - unfold emit, clear. simpl. by rewrite lookup_empty.
  - intros Hb. rewrite on_eq, Hb. cbn [snd].
    rewrite subscribers_with, decide_True by done.
    unfold clear. simpl. by rewrite lookup_empty.
Qed.

(** X7: [off] with the function that was given to [once] does not cancel
    the subscription: [once] subscribed a wrapper, which stays, so the
    next [emit] still reaches the function. *)
Theorem off_does_not_cancel_once ev cb b :
  blank ev = false →
  let b1 := (once (VStr ev) (VFun cb) b).2 in
  let b2 := off (VStr ev) (VFun cb) b1 in
  OnceFn (next_fn b) ev cb ∈ subscribers ev b1 ∧
  OnceFn (next_fn b) ev cb ∈ subscribers ev b2 ∧
  (cb ∉ subscribers ev b → b2 = b1) ∧
  (∀ datos, subscribers ev b = [] → quiet body ev datos cb →
     calls_since b2 (emit body (VStr ev) datos b2).2 = [(target cb, datos)]).
Proof.
  intros Hb. rewrite once_eq, Hb. cbn [snd].
  set (W := OnceFn (next_fn b) ev cb).
  set (s1 := JSSet.add (default JSSet.empty (listeners b !! ev)) W).
  set (b1 := with_listeners _ _).
  assert (W ≠ cb) as Hne.
  { unfold W. clear. generalize (next_fn b). intros n.
    induction cb as [id|fid ev' inner IH]; [done|].
    intros [= -> -> Heq]. by apply IH. }
  assert (listeners b1 !! ev = Some s1) as Hl1
    by (simpl; apply lookup_insert_eq).
  assert (W ∈ JSSet.values s1) as Hin.
  { unfold s1. rewrite values_add. case_decide; [done|].
    apply elem_of_app. right. by apply list_elem_of_singleton. }
  assert (cb ∉ subscribers ev b → off (VStr ev) (VFun cb) b1 = b1) as Hsame.
  { intros Hout. apply off_unsubscribed. unfold subscribers. rewrite Hl1.
    unfold s1. rewrite values_add. unfold subscribers in Hout.
    case_decide.
    + destruct (listeners b !! ev); [done|apply not_elem_of_nil].
    + intros [Hc|Hc%list_elem_of_singleton]%elem_of_app; [|done].
      destruct (listeners b !! ev); [done|by apply elem_of_nil in Hc]. }
  split_and!.
  - unfold subscribers. by rewrite Hl1.
  - rewrite (off_same ev cb b1 s1 Hl1), subscribers_with, decide_True by done.
    apply values_elem_of in Hin. apply values_elem_of.
    apply list_elem_of_lookup in Hin as [j Hj]. apply list_elem_of_lookup.
    exists j. destruct (delete_emptied s1 cb) as [_ He].
    destruct (He j) as [->|[Hc _]]; [done|]. congruence.
  - done.
  - intros datos Hnone Hq. rewrite Hsame by (rewrite Hnone; apply not_elem_of_nil).
    assert (JSSet.values s1 = [W]) as Hv1.
    { unfold s1. rewrite values_add. unfold subscribers in Hnone.
      case_decide as Hin'.
      - exfalso. destruct (listeners b !! ev) as [s|]; simpl in Hin';
          [rewrite Hnone in Hin'|]; by apply elem_of_nil in Hin'.
      - destruct (listeners b !! ev) as [s|]; simpl; [by rewrite Hnone|done]. }
    destruct (emit_visits body ev datos b1 s1 Hl1)
      as (b' & s' & -> & _ & Hc & _).
    { unfold JSSet.wf. rewrite Hv1. apply NoDup_singleton. }
    { intros x. rewrite Hv1. by intros ->%list_elem_of_singleton. }
    cbn [snd]. rewrite (calls_since_app _ _ _ Hc), Hv1. done.
Qed.

End BusEmitEdges.

Section BusInvariant.

Import EventBus.

Variable body : nat → list Value → list Action.

Lemma only_empties_refl b : only_empties b b.
Proof.
  split; [done|]. intros ev. destruct (listeners b !! ev); [|done].
  split; [done|]. by left.
Qed.

Lemma only_empties_trans b1 b2 b3 :
  only_empties b1 b2 → only_empties b2 b3 → only_empties b1 b3.
Proof.
  intros [Hn1 H1] [Hn2 H2]. split; [congruence|]. intros ev.
  specialize (H1 ev). specialize (H2 ev).
  destruct (listeners b1 !! ev) as [s1|], (listeners b2 !! ev) as [s2|],
    (listeners b3 !! ev) as [s3|]; try done.
  destruct H1 as [Hl1 H1], H2 as [Hl2 H2]. split; [congruence|].
  intros j. destruct (H2 j) as [-> | ->]; [apply H1|by right].
Qed.

Lemma only_empties_same_listeners b b' :
  listeners b' = listeners b → next_fn b' = next_fn b → only_empties b b'.
Proof.
  intros Hl Hn. split; [done|]. intros ev. rewrite Hl.
  destruct (listeners b !! ev); [|done]. split; [done|]. by left.
Qed.

Lemma only_empties_delete ev cb b s :
  listeners b !! ev = Some s →
  only_empties b
    (with_listeners (<[ev := JSSet.delete s cb]> (listeners b)) b).
Proof.
  intros Hs. split; [done|]. intros ev'. simpl. rewrite lookup_insert.
  case_decide as Hev.
  - subst ev'. rewrite Hs. destruct (delete_emptied s cb) as [Hl He].
    split; [done|]. intros j. destruct (He j) as [?|[_ ?]]; auto.
  - destruct (listeners b !! ev'); [|done]. split; [done|]. by left.
Qed.

Lemma off_only_empties evento callback b :
  only_empties b (off evento callback b).
Proof.
  destruct evento as [| | | |ev| |]; try apply only_empties_refl.
  destruct callback as [| | | | | |cb]; try apply only_empties_refl.
  unfold off. destruct (listeners b !! ev) as [s|] eqn:Hs;
    [by apply only_empties_delete|apply only_empties_refl].
Qed.

Lemma remover_only_empties r b : only_empties b (remover r b).2.
Proof.
  unfold remover. destruct (listeners b !! rm_evento r) as [s|] eqn:Hs;
    [by apply only_empties_delete|apply only_empties_refl].
Qed.

Lemma run_actions_only_empties acts b :
  only_empties b (run_actions acts b).2.
Proof.
  revert b. induction acts as [|a acts IH]; intros b;
    [apply only_empties_refl|].
  destruct a as [|ev id|ev id]; cbn [run_actions run_action].
  - apply only_empties_refl.
  - eapply only_empties_trans; [apply off_only_empties|apply IH].
  - pose proof (remover_only_empties (mkRemover ev (UserFn id)) b) as Hr.
    destruct (remover (mkRemover ev (UserFn id)) b) as [[u|e] b1];
      simpl in *; [|done].
    eapply only_empties_trans; [exact Hr|apply IH].
Qed.

Lemma invoke_only_empties cb datos b :
  only_empties b (invoke body cb datos b).2.
Proof.
  revert b. induction cb as [id|fid ev inner IH]; intros b; simpl.
  - eapply only_empties_trans; [|apply run_actions_only_empties].
    by apply only_empties_same_listeners.
  - specialize (IH b).
    destruct (invoke body inner datos b) as [[u|e] b1]; simpl in *; [|done].
    eapply only_empties_trans; [exact IH|apply remover_only_empties].
Qed.

Lemma forEach_only_empties ev datos n idx b :
  only_empties b (forEach body ev datos n idx b).
Proof.
  revert idx b. induction n as [|n IH]; intros idx b;
    [apply only_empties_refl|].
  cbn [forEach].
  destruct (listeners b !! ev ≫= (.!! idx)) as [[cb|]|]; try apply IH.
  pose proof (invoke_only_empties cb datos (note_dispatch cb datos b)) as Hi.
  destruct (invoke body cb datos (note_dispatch cb datos b)) as [[u|e] b1];
    simpl in *.
  - eapply only_empties_trans; [|apply IH].
    eapply only_empties_trans; [|exact Hi].
    by apply only_empties_same_listeners.
  - eapply only_empties_trans; [|apply IH].
    eapply only_empties_trans;
      [|eapply only_empties_trans; [exact Hi|]];
      by apply only_empties_same_listeners.
Qed.

Lemma emit_only_empties evento datos b :
  only_empties b (emit body evento datos b).2.
Proof.
  destruct evento as [| | | |ev| |]; try apply only_empties_refl.
  unfold emit. destruct (listeners (note_emit ev datos b) !! ev).
  - simpl. eapply only_empties_trans; [|apply forEach_only_empties].
    by apply only_empties_same_listeners.
  - by apply only_empties_same_listeners.
Qed.

Lemma bus_ok_only_empties b b' : only_empties b b' → bus_ok b → bus_ok b'.
Proof.
  intros [Hn He] [Hnames Hwf Hwr].
  assert (∀ ev s', listeners b' !! ev = Some s' →
            ∃ s, listeners b !! ev = Some s ∧
                 JSSet.values s' `sublist_of` JSSet.values s) as Hsub.
  { intros ev s' Hs'. specialize (He ev). rewrite Hs' in He.
    destruct (listeners b !! ev) as [s|]; [|done]. exists s.
    split; [done|]. destruct He as [Hl Hj].
    by apply slots_emptied_values. }
  split.
  - intros ev s' Hs'. destruct (Hsub ev s' Hs') as (s & Hs & _). eauto.
  - intros ev s' Hs'. destruct (Hsub ev s' Hs') as (s & Hs & Hsl).
    eapply sublist_NoDup; [by eapply Hwf|done].
  - intros ev s' fid ev' inner Hs' Hin.
    destruct (Hsub ev s' Hs') as (s & Hs & Hsl). rewrite Hn.
    eapply Hwr; [done|]. by eapply elem_of_sublist.
Qed.

Lemma bus_ok_initial : bus_ok EventBus.initial.
Proof. split; intros ev s; simpl; by rewrite lookup_empty. Qed.

Lemma bus_ok_add ev cb b n :
  blank ev = false → bus_ok b → (next_fn b ≤ n)%nat →
  match cb with
  | UserFn _ => True
  | OnceFn fid ev' _ => ev' = ev ∧ (fid < n)%nat
  end →
  bus_ok
    (mkState
       (<[ev := JSSet.add (default JSSet.empty (listeners b !! ev)) cb]>
          (listeners b))
       n (console_error b) (emitted b) (dispatched b) (calls b)).
Proof.
  intros Hb [Hnames Hwf Hwr] Hn Hcb.
  set (s0 := default JSSet.empty (listeners b !! ev)).
  assert (JSSet.wf s0) as Hwf0.
  { unfold s0. destruct (listeners b !! ev) as [s|] eqn:E; simpl;
      [by eapply Hwf|apply NoDup_nil_2]. }
  split; simpl.
  - intros ev' s. rewrite lookup_insert. case_decide; [by subst|].
    apply Hnames.
  - intros ev' s. rewrite lookup_insert. case_decide.
    + intros [= <-]. by apply wf_add.
    + apply Hwf.
  - intros ev' s fid ev'' inner. rewrite lookup_insert. case_decide as Hev.
    + subst ev'. intros [= <-]. rewrite values_add.
      assert (OnceFn fid ev'' inner ∈ JSSet.values s0 →
              ev'' = ev ∧ (fid < n)%nat) as Hold.
      { unfold s0. destruct (listeners b !! ev) as [s|] eqn:E; simpl.
        - intros Hin. destruct (Hwr ev s fid ev'' inner E Hin). split; [done|lia].
        - by intros ?%elem_of_nil. }
      case_decide; [done|].
      intros [Hin|Hin%list_elem_of_singleton]%elem_of_app; [by apply Hold|].
      by subst cb.
    + intros Hs Hin. destruct (Hwr ev' s fid ev'' inner Hs Hin).
      split; [done|lia].
Qed.

Lemma bus_ok_on evento callback b :
  client_op (OOn evento callback) → bus_ok b →
  bus_ok (on evento callback b).2.
Proof.
  intros Hc Hok.
  destruct evento as [| | | |ev| |]; try done.
  destruct callback as [| | | | | |cb];
    try (unfold on, validarTipo; by destruct (blank ev)).
  rewrite on_eq. destruct (blank ev) eqn:Hb; [done|]. simpl.
  apply (bus_ok_add ev cb b (next_fn b)); [done..|]. by destruct cb.
Qed.

Lemma bus_ok_once evento callback b :
  bus_ok b → bus_ok (once evento callback b).2.
Proof.
  intros Hok.
  destruct evento as [| | | |ev| |]; try done.
  destruct callback as [| | | | | |cb];
    try (unfold once, validarTipo; by destruct (blank ev)).
  rewrite once_eq. destruct (blank ev) eqn:Hb; [done|]. simpl.
  apply (bus_ok_add ev (OnceFn (next_fn b) ev cb) b (S (next_fn b)));
    [done..|lia|]. split; [done|lia].
Qed.

Lemma bus_ok_step w o :
  client_op o → bus_ok (bus w) → bus_ok (bus (step body w o)).
Proof.
  intros Hc Hok. destruct o; simpl; try done.
  - by rewrite set_bus.
  - rewrite get_eq.
    destruct (lookup_clave clave (store w)); [case_decide|]; cbn [snd bus];
      (eapply bus_ok_only_empties; [apply emit_only_empties|done]).
  - destruct clave; try done. simpl.
    by destruct (cache (store w) !! s).
  - unfold fire. destruct (timers (store w) !! tid); [|done].
    by case_bool_decide.
  - by apply bus_ok_on.
  - by apply bus_ok_once.
  - eapply bus_ok_only_empties; [apply off_only_empties|done].
  - eapply bus_ok_only_empties; [apply remover_only_empties|done].
  - eapply bus_ok_only_empties; [apply emit_only_empties|done].
Qed.

(** X8: in every execution whose [on] calls pass client functions, the
    registry is well formed: no event name is blank, no function occupies
    two slots of a set, and every wrapper of [once] sits under the event
    it was created for, with an identity older than the next one. *)
Theorem registry_is_well_formed t0 ops :
  Forall client_op ops →
  bus_ok (bus (run body ops (CacheManager.initial t0))).
Proof.
  intros Hops.
  assert (∀ w, bus_ok (bus w) → bus_ok (bus (run body ops w))) as Hrun.
  { induction Hops as [|o ops Ho Hops IH]; intros w Hok; [done|].
    simpl. by apply IH, bus_ok_step. }
  apply Hrun, bus_ok_initial.
Qed.

Lemma once_subscribes_last ev cb b :
  bus_ok b → blank ev = false →
  let b1 := (once (VStr ev) (VFun cb) b).2 in
  subscribers ev b1 = subscribers ev b ++ [OnceFn (next_fn b) ev cb] ∧
  next_fn b1 = S (next_fn b).
Proof.
  intros Hok Hb. rewrite once_eq, Hb. cbn [snd]. split; [|done].
  unfold subscribers at 1. simpl. rewrite lookup_insert_eq.
  rewrite values_add. case_decide as Hin.
  - exfalso. destruct (listeners b !! ev) as [s|] eqn:Hs; simpl in Hin.
    + destruct (wrappers_known _ Hok ev s _ _ _ Hs Hin). lia.
    + by apply elem_of_nil in Hin.
  - unfold subscribers. by destruct (listeners b !! ev).
Qed.

(** X9: unlike [on], two [once] calls with the same function subscribe two
    wrappers, after the subscribers the event had; so the next [emit] runs
    the function twice. *)
Theorem once_twice_subscribes_two_wrappers ev cb b :
  bus_ok b → blank ev = false →
  let n := next_fn b in
  let b2 := (once (VStr ev) (VFun cb) (once (VStr ev) (VFun cb) b).2).2 in
  subscribers ev b2 =
    subscribers ev b ++ [OnceFn n ev cb; OnceFn (S n) ev cb] ∧
  (∀ datos,
     (∀ x, x ∈ subscribers ev b2 → self_contained body ev datos x) →
     calls_since b2 (emit body (VStr ev) datos b2).2 =
       ((λ x, (target x, datos)) <$> subscribers ev b) ++
       [(target cb, datos); (target cb, datos)]).
Proof.
  intros Hok Hb n b2.
  destruct (once_subscribes_last ev cb b Hok Hb) as [H1 Hn1].
  pose proof (bus_ok_once (VStr ev) (VFun cb) b Hok) as Hok1.
  destruct (once_subscribes_last ev cb _ Hok1 Hb) as [H2 _].
  pose proof (bus_ok_once (VStr ev) (VFun cb) _ Hok1) as Hok2.
  fold b2 in H2, Hok2. rewrite Hn1, H1, <- app_assoc in H2. simpl in H2.
  split; [exact H2|].
  intros datos Hsc. unfold subscribers at 1 in H2. unfold subscribers in Hsc.
  destruct (listeners b2 !! ev) as [s2|] eqn:Hs2.
  2: { symmetry in H2. by apply app_eq_nil in H2 as [_ ?]. }
  destruct (emit_visits body ev datos b2 s2 Hs2)
    as (b' & s' & -> & _ & Hc & _); [by eapply (sets_wf _ Hok2)|done|].
  cbn [snd]. rewrite (calls_since_app _ _ _ Hc), H2, fmap_app. done.
Qed.

End BusInvariant.

Section BusLogging.

Import EventBus.

Variable body : nat → list Value → list Action.
Variable evento : string.
Variable datos : list Value.

Lemma plain_actions acts b :
  Forall (λ a, match a with
               | AThrow => True
               | AOff ev _ => ev ≠ evento
               | ARemover _ _ => False
               end) acts →
  (run_actions acts b).1 =
    (if decide (AThrow ∈ acts) then Throw Thrown else Normal ()) ∧
  listeners (run_actions acts b).2 !! evento = listeners b !! evento.
Proof.
  revert b. induction acts as [|a acts IH]; intros b Hp.
  { split; [|done]. simpl.
    destruct (decide (AThrow ∈ [])) as [Hin|_]; [by apply elem_of_nil in Hin|done]. }
  apply Forall_cons in Hp as [Ha Hp].
  destruct a as [|ev id|ev id]; cbn [run_actions run_action]; [| |done].
  - split; [|done].
    destruct (decide (AThrow ∈ AThrow :: acts)) as [_|Hn]; [done|].
    exfalso. apply Hn, list_elem_of_here.
  - destruct (IH (off (VStr ev) (VFun (UserFn id)) b) Hp) as [-> ->].
    split; [|by apply off_other].
    destruct (decide (AThrow ∈ acts)) as [Hin|Hin];
      destruct (decide (AThrow ∈ AOff ev id :: acts)) as [Hin'|Hin'];
      try done.
    + exfalso. by apply Hin', list_elem_of_further.
    + apply elem_of_cons in Hin' as [?|?]; [discriminate|done].
Qed.

Lemma forEach_logs s n idx b :
  listeners b !! evento = Some s →
  (∀ cb, cb ∈ JSSet.values s → plain body evento datos cb) →
  let b' := forEach body evento datos n idx b in
  console_error b' =
    console_error b ++
    ((λ _, (evento, Thrown)) <$>
       filter (throws body datos) (JSSet.values (take n (drop idx s)))) ∧
  listeners b' !! evento = Some s.
Proof.
  intros Hs Hplain. revert idx b Hs.
  induction n as [|n IH]; intros idx b Hs.
  { simpl. rewrite app_nil_r. done. }
  cbn [forEach]. rewrite Hs. simpl.
  destruct (s !! idx) as [slot|] eqn:Hi.
  - rewrite (drop_S _ _ _ Hi). cbn [take].
    destruct slot as [cb|].
    + pose proof (Hplain cb (values_lookup s idx cb Hi)) as Hcb.
      destruct cb as [id|]; [|done]. simpl in Hcb.
      cbn [invoke].
      destruct (plain_actions (body id datos)
                  (note_call id datos (note_dispatch (UserFn id) datos b)) Hcb)
        as [Hres Hl].
      destruct (run_actions_frame (body id datos)
                  (note_call id datos (note_dispatch (UserFn id) datos b)))
        as (_ & _ & _ & Hce & _).
      destruct (run_actions (body id datos)
                  (note_call id datos (note_dispatch (UserFn id) datos b)))
        as [r b1]. simpl in *.
      change (JSSet.values (Some (UserFn id) :: take n (drop (S idx) s)))
        with (UserFn id :: JSSet.values (take n (drop (S idx) s))).
      case_decide as Hthrow; subst r.
      * destruct (IH (S idx) (log_error evento Thrown b1)) as [-> ->];
          [by simpl; rewrite Hl|].
        split; [|done]. rewrite filter_cons_True by done. simpl.
        rewrite Hce. simpl. by rewrite <- app_assoc.
      * destruct (IH (S idx) b1) as [-> ->]; [by rewrite Hl|].
        split; [|done]. rewrite filter_cons_False by done. by rewrite Hce.
    + apply (IH (S idx) b Hs).
  - rewrite drop_ge by (by apply lookup_ge_None). rewrite take_nil.
    destruct (IH (S idx) b Hs) as [-> ->]. split; [|done].
    rewrite drop_ge; [by rewrite take_nil|].
    apply lookup_ge_None in Hi. lia.
Qed.

(** X27: what [emit] writes to the console.  When the subscribers of the
    event are client functions that call no remover and leave the event's
    subscriptions alone, [emit] logs one error, under the event's name, for
    each subscriber that throws, in the order of subscription, and nothing
    for the ones that return; the subscribers stay as they were. *)
Theorem emit_logs_each_thrown_error b s :
  listeners b !! evento = Some s →
  (∀ cb, cb ∈ JSSet.values s → plain body evento datos cb) →
  let b' := (emit body (VStr evento) datos b).2 in
  console_error b' =
    console_error b ++
    ((λ _, (evento, Thrown)) <$> filter (throws body datos) (JSSet.values s)) ∧
  listeners b' !! evento = Some s.
Proof.
  intros Hs Hplain. unfold emit. simpl. rewrite Hs. simpl.
  destruct (forEach_logs s (length s) 0 (note_emit evento datos b))
    as [-> ->]; [done..|].
  by rewrite drop_0, firstn_all.
Qed.

End BusLogging.

Section BusHalves.

Import EventBus.

Variable body : nat → list Value → list Action.

(** X28: while the event is known, the remover that [on] returned takes
    out the function it was made for and no other, touches no other
    event, and a second call changes nothing. *)
Theorem remover_is_idempotent_while_the_event_is_known ev cb b r b1 :
  (∀ s, listeners b !! ev = Some s → JSSet.wf s) →
  on (VStr ev) (VFun cb) b = (Normal r, b1) →
  let a1 := remover r b1 in
  a1.1 = Normal () ∧
  (cb ∉ subscribers ev (a1.2)) ∧
  (∀ x, x ≠ cb → (x ∈ subscribers ev (a1.2) ↔ x ∈ subscribers ev b)) ∧
  (∀ ev', ev' ≠ ev → listeners (a1.2) !! ev' = listeners b !! ev') ∧
  remover r (a1.2) = (Normal (), a1.2).
Proof.
  intros Hwf Hon.
  apply on_inv in Hon as (ev' & cb' & Hev & Hcb & Hb & -> & ->).
  simplify_eq.
  set (s := default JSSet.empty (listeners b !! ev')).
  assert (JSSet.wf s) as Hs.
  { unfold s. destruct (listeners b !! ev') as [s0|] eqn:E; simpl;
      [by apply Hwf|apply NoDup_nil_2]. }
  set (b1 := with_listeners (<[ev':=JSSet.add s cb']> (listeners b)) b).
  assert (listeners b1 !! ev' = Some (JSSet.add s cb')) as Hl1
    by (simpl; apply lookup_insert_eq).
  destruct (remover_removes ev' cb' b1 _ Hl1 (wf_add s cb' Hs))
    as (Hnorm & Hout & Hsame & Hoth & Htwice).
  split_and!; try done.
  - intros x Hne. rewrite (Hsame x Hne). unfold subscribers at 1. rewrite Hl1.
    rewrite values_add. unfold subscribers, s.
    case_decide.
    + by destruct (listeners b !! ev').
    + rewrite elem_of_app, list_elem_of_singleton.
      destruct (listeners b !! ev'); simpl;
        (split; [intros [?|?]; [done|congruence]|by left]).
  - intros ev'' Hne. rewrite (Hoth ev'' Hne). simpl. by rewrite lookup_insert_ne.
Qed.

(** X29: what [once] does deliver once.  A function that returns and
    leaves the event's subscriptions alone, given to [once] for an event
    without subscribers, runs at the first [emit], with its arguments, and
    never again: its wrapper is gone after that [emit]. *)
Theorem once_runs_a_returning_function_once ev id b x1 x2 :
  blank ev = false → listeners b !! ev = None →
  Forall (returning_action ev) (body id x1) →
  Forall (quiet_action ev) (body id x1) →
  let b1 := (once (VStr ev) (VFun (UserFn id)) b).2 in
  let b2 := (emit body (VStr ev) x1 b1).2 in
  let b3 := (emit body (VStr ev) x2 b2).2 in
  calls_since b b3 = [(id, x1)] ∧
  subscribers ev b2 = [] ∧ subscribers ev b3 = [].
Proof. apply once_delivers_once. Qed.

End BusHalves.

(** * Further properties of the cache *)

Section CacheEdges.

Variable body : nat → list Value → list Action.

Lemma set_stats clave valor ttl w :
  stats (store (set clave valor ttl w).2) = stats (store w).
Proof.
  destruct clave as [| | | |k| |]; try done.
  destruct (blank k) eqn:Hb; [by rewrite set_invalid|].
  pose proof (normalizar_ttl_nonneg ttl).
  destruct (decide (normalizar_ttl ttl = 0)).
  - rewrite set_unarmed by done. simpl. apply limpiarEntrada_stats.
  - rewrite set_armed by (done || lia). simpl. apply limpiarEntrada_stats.
Qed.

(** X10: what [set] stores is what an immediate [get] returns, as a hit,
    for every value and every TTL; and of two [set] on one key the second
    wins. *)
Theorem set_then_get_round_trip k v v0 ttl ttl0 w :
  blank k = false →
  let w1 := (set (VStr k) v ttl w).2 in
  let w2 := (set (VStr k) v ttl (set (VStr k) v0 ttl0 w).2).2 in
  is_hit v (VStr k) w1 (get body (VStr k) w1) ∧
  is_hit v (VStr k) w2 (get body (VStr k) w2).
Proof.
  intros Hb.
  assert (∀ w', is_hit v (VStr k) (set (VStr k) v ttl w').2
                  (get body (VStr k) (set (VStr k) v ttl w').2)) as Hany.
  { intros w'. destruct (set_entry k v ttl w' Hb) as (e & He & <- & Hx).
    apply get_live; [done|]. rewrite set_clock. unfold expired.
    pose proof (normalizar_ttl_nonneg ttl). case_decide; lia. }
  split; apply Hany.
Qed.

(** X11: [set] is silent and local: it moves no counter, emits nothing,
    leaves the clock and the entries of the other keys alone, and, in an
    execution, cancels no timer of another key. *)
Theorem set_is_silent_and_local clave valor ttl w :
  let w1 := (set clave valor ttl w).2 in
  stats (store w1) = stats (store w) ∧
  bus w1 = bus w ∧
  clock (store w1) = clock (store w) ∧
  (∀ k', clave ≠ VStr k' → cache (store w1) !! k' = cache (store w) !! k') ∧
  (reachable body w →
   ∀ tid tm, timers (store w) !! tid = Some tm → clave ≠ VStr (clave_of tm) →
             timers (store w1) !! tid = Some tm).
Proof.
  split_and!.
  - apply set_stats.
  - apply set_bus.
  - apply set_clock.
  - intros k' Hne. destruct clave as [| | | |k| |]; try done.
    apply set_other_key. congruence.
  - intros Hreach tid tm Htm Hne.
    pose proof (owned_reachable body w Hreach) as Hown.
    destruct clave as [| | | |k| |]; try done.
    destruct (blank k) eqn:Hb; [by rewrite set_invalid|].
    assert (timers (limpiarEntrada k (store w)) !! tid = Some tm) as Hkept.
    { rewrite limpiarEntrada_timers.
      destruct (cache (store w) !! k) as [e|] eqn:Hk; simpl; [|done].
      pose proof (entry_has_timer _ Hown _ _ Hk) as He.
      destruct (timeoutId e) as [t|]; [|done]. destruct He as [[d He] _].
      case_decide as Ht; [|done]. subst t. rewrite Htm in He.
      by simplify_eq. }
    pose proof (normalizar_ttl_nonneg ttl).
    destruct (decide (normalizar_ttl ttl = 0)).
    + by rewrite set_unarmed.
    + rewrite set_armed by (done || lia). simpl.
      rewrite lookup_insert_ne; [done|].
      rewrite limpiarEntrada_next_timer.
      apply (timer_fresh _ Hown) in Htm. lia.
Qed.

(** X12: [del] forgets the key: afterwards the key is absent, a second
    [del] returns false and changes nothing, a [get] is a miss, the other
    keys keep their entries, and in an execution no pending timer is left
    for the key. *)
Theorem del_forgets_the_key k w :
  let w1 := (del (VStr k) w).2 in
  cache (store w1) !! k = None ∧
  del (VStr k) w1 = (false, w1) ∧
  is_miss (VStr k) w1 (get body (VStr k) w1) ∧
  (∀ k', k' ≠ k → cache (store w1) !! k' = cache (store w) !! k') ∧
  (reachable body w →
   ∀ tid tm, timers (store w1) !! tid = Some tm → clave_of tm ≠ k).
Proof.
  cbv zeta.
  assert (cache (store (del (VStr k) w).2) !! k = None) as Hgone.
  { simpl. destruct (cache (store w) !! k) eqn:Hk; simpl; [|done].
    by rewrite limpiarEntrada_cache, decide_True. }
  split_and!.
  - done.
  - generalize dependent (del (VStr k) w).2. intros w1 Hgone.
    simpl. by rewrite Hgone.
  - by apply get_absent.
  - intros k' Hne. simpl. destruct (cache (store w) !! k); simpl; [|done].
    by rewrite limpiarEntrada_cache, decide_False.
  - intros Hreach tid tm Htm Hk.
    pose proof (owned_del (VStr k) w (owned_reachable body w Hreach)) as Hown.
    destruct (timer_has_entry _ Hown _ _ Htm) as (v & x & Hv & _).
    rewrite Hk in Hv. by rewrite Hgone in Hv.
Qed.

End CacheEdges.

Section CacheLifecycle.

Variable body : nat → list Value → list Action.

Lemma debug_snapshot w d :
  let i := debug w in
  size i = length (keys i) ∧ NoDup (keys i) ∧
  (∀ k, k ∈ keys i ↔ is_Some (cache (store w) !! k)) ∧
  debug_stats i = stats (store w) ∧
  debug (tick d w) = i.
Proof.
  unfold debug. simpl. split_and!; try done.
  - apply NoDup_fst_map_to_list.
  - intros k. rewrite list_elem_of_fmap. split.
    + intros ([k' e] & -> & Hin). apply elem_of_map_to_list in Hin.
      by eexists.
    + intros [e He]. exists (k, e). split; [done|].
      by apply elem_of_map_to_list.
Qed.

(** X13: [clear] of the cache, in an execution: no entry and no pending
    timer is left, both counters are 0, [debug] shows an empty cache,
    every [get] that follows is a miss; the subscriptions of the bus and
    the clock are not touched. *)
Theorem cache_clear_empties_the_store w :
  reachable body w →
  let w1 := clear w in
  cache (store w1) = ∅ ∧ timers (store w1) = ∅ ∧
  debug w1 = mkDebugInfo 0 (mkStats 0 0) [] ∧
  bus w1 = bus w ∧ clock (store w1) = clock (store w) ∧
  ∀ clave, is_miss clave w1 (get body clave w1).
Proof.
  intros Hreach. pose proof (owned_reachable body w Hreach) as Hown.
  assert (clock (store (clear w)) = clock (store w)) as Hclk.
  { unfold clear. simpl.
    generalize (map_to_list (cache (store w))).*1. intros ks.
    generalize (store w). induction ks as [|k ks IH]; intros st; [done|].
    simpl. rewrite IH. apply limpiarEntrada_clock. }
  cbv zeta. split_and!; try done.
  - apply map_eq. intros tid. rewrite lookup_empty. by apply clear_timers.
  - intros clave. pose proof (get_cases body clave (clear w)) as H.
    assert (lookup_clave clave (store (clear w)) = None) as Hl
      by (destruct clave; try done; simpl; apply lookup_empty).
    by rewrite Hl in H.
Qed.

(** X14: [debug] of the cache is a snapshot of what is stored: [size] is
    the number of [keys], no key is listed twice, a key is listed exactly
    when it has an entry, expired or not, and the counters are the
    current ones.  Time alone changes nothing in it. *)
Theorem debug_lists_the_stored_keys w d :
  let i := debug w in
  size i = length (keys i) ∧ NoDup (keys i) ∧
  (∀ k, k ∈ keys i ↔ is_Some (cache (store w) !! k)) ∧
  debug_stats i = stats (store w) ∧
  debug (tick d w) = i.
Proof. exact (debug_snapshot w d). Qed.

(** X15: an entry whose TTL has passed stays stored, and listed by
    [debug], as long as neither its timer has run nor a [get] has asked
    for it; the [get] that finds it counts a miss, removes it and cancels
    its timer. *)
Theorem expired_entry_stays_until_reaped k v T d w :
  blank k = false → 0 ≤ clock (store w) → 0 < T < Z.of_nat d →
  let w1 := (set (VStr k) v (VNum T) w).2 in
  let w2 := tick d w1 in
  let w3 := (get body (VStr k) w2).2 in
  k ∈ keys (debug w2) ∧
  is_miss (VStr k) w2 (get body (VStr k) w2) ∧
  (k ∉ keys (debug w3)) ∧
  timers (store w3) !! next_timer (store w) = None.
Proof.
  intros Hb Hclk HT.
  assert (normalizar_ttl (VNum T) = T) as Hn.
  { simpl. rewrite bool_decide_false; [done|lia]. }
  rewrite set_armed by (done || lia). rewrite Hn. cbn [snd].
  rewrite limpiarEntrada_clock, limpiarEntrada_next_timer.
  set (e := mkEntrada v (clock (store w) + T) (Some (next_timer (store w)))).
  set (w2 := tick d _).
  assert (cache (store w2) !! k = Some e) as Hk
    by (simpl; apply lookup_insert_eq).
  assert (expired e (clock (store w2))) as Hex.
  { unfold expired. simpl. lia. }
  destruct (debug_snapshot w2 0) as (_ & _ & Hkeys & _).
  split_and!.
  - apply Hkeys. by eexists.
  - by apply (get_expired body k e).
  - destruct (debug_snapshot (get body (VStr k) w2).2 0)
      as (_ & _ & Hkeys3 & _).
    rewrite Hkeys3, get_eq. cbn [lookup_clave]. rewrite Hk.
    rewrite decide_True by done. cbn [snd store count_miss with_stats cache].
    rewrite limpiarEntrada_cache, decide_True by done. by intros [? ?].
  - rewrite get_eq. cbn [lookup_clave]. rewrite Hk.
    rewrite decide_True by done. cbn [snd store count_miss with_stats timers].
    rewrite limpiarEntrada_timers, Hk. simpl. by rewrite decide_True.
Qed.

End CacheLifecycle.

Section CacheExpiry.

Variable body : nat → list Value → list Action.



(** X18: [get] removes nothing but an expired entry stored under the key
    it is asked for: every other entry, and that one while it is live,
    stays as it is. *)
Theorem get_removes_only_an_expired_entry clave w k :
  let w1 := (get body clave w).2 in
  cache (store w1) !! k =
    match cache (store w) !! k with
    | Some e =>
        if decide (clave = VStr k ∧ expired e (clock (store w)))
        then None else Some e
    | None => None
    end.
Proof.
  cbv zeta. rewrite get_eq.
  destruct (lookup_clave clave (store w)) as [e|] eqn:Hl.
  - destruct clave as [| | | |k0| |]; try done. simpl in Hl.
    case_decide as Hex; simpl.
    + rewrite limpiarEntrada_cache. case_decide as Hk.
      * subst k0. rewrite Hl. by rewrite decide_True.
      * destruct (cache (store w) !! k); [|done].
        rewrite decide_False; [done|]. intros [[= ->] _]. done.
    + destruct (cache (store w) !! k) as [e'|] eqn:Hk; [|done].
      rewrite decide_False; [done|]. intros [[= ->] Hex'].
      rewrite Hk in Hl. by simplify_eq.
  - simpl. destruct (cache (store w) !! k) as [e'|] eqn:Hk; [|done].
    rewrite decide_False; [done|]. intros [-> _]. simpl in Hl. congruence.
Qed.

Lemma step_counts w o :
  o ≠ OClear →
  let s := stats (store w) in
  let s' := stats (store (step body w o)) in
  (hits s' + misses s' = hits s + misses s + (if is_get o then 1 else 0))%nat ∧
  (hits s ≤ hits s')%nat ∧ (misses s ≤ misses s')%nat.
Proof.
  intros Hne. destruct o; try done; cbn [step is_get];
    try (cbv zeta; simpl; lia).
  - rewrite set_stats. cbv zeta. lia.
  - pose proof (get_cases body clave w) as H. cbv zeta.
    destruct (lookup_clave clave (store w)); [case_decide|];
      destruct H as (_ & -> & -> & _); lia.
  - cbv zeta. destruct clave; simpl; try lia.
    destruct (cache (store w) !! s); simpl; [|lia].
    rewrite limpiarEntrada_stats. lia.
  - cbv zeta. unfold fire. destruct (timers (store w) !! tid); [|lia].
    case_bool_decide; simpl; lia.
Qed.

(** X19: the counters count the calls of [get]: over any operations other
    than [clear], neither counter ever goes down, and [hits + misses]
    grows by exactly the number of [get] calls. *)
Theorem gets_are_counted ops w :
  Forall (λ o, o ≠ OClear) ops →
  let s := stats (store w) in
  let s' := stats (store (run body ops w)) in
  (hits s' + misses s' =
     hits s + misses s + length (filter (λ o, is_get o) ops))%nat ∧
  (hits s ≤ hits s')%nat ∧ (misses s ≤ misses s')%nat.
Proof.
  intros Hops. revert w. induction Hops as [|o ops Ho Hops IH]; intros w.
  { cbv zeta. simpl. lia. }
  specialize (IH (step body w o)). cbv zeta in *. simpl run.
  pose proof (step_counts w o Ho) as Hs. cbv zeta in Hs.
  rewrite filter_cons. destruct (is_get o); simpl in *; lia.
Qed.


(** X21: a key that is not a string is never stored and never found:
    [set] throws and changes nothing, [get] is a miss, [del] returns
    false and changes nothing. *)
Theorem non_string_keys_are_never_stored clave valor ttl w :
  typeof clave ≠ TString →
  set clave valor ttl w = (Throw ErrClave, w) ∧
  is_miss clave w (get body clave w) ∧
  cache (store (get body clave w).2) = cache (store w) ∧
  del clave w = (false, w).
Proof.
  intros Hne. assert (lookup_clave clave (store w) = None) as Hl
    by by destruct clave.
  split_and!.
  - by destruct clave.
  - pose proof (get_cases body clave w) as H. by rewrite Hl in H.
  - rewrite get_eq, Hl. done.
  - by destruct clave.
Qed.

End CacheExpiry.

(** ** White space *)

Lemma trim_start_nil l :
  trim_start l = [] ↔ Forall (λ c, is_white_space c = true) l.
Proof.
  induction l as [|c l IH]; simpl; [by split|].
  destruct (is_white_space c) eqn:Hc.
  - rewrite IH. split; [by constructor|]. by intros [_ ?]%Forall_cons.
  - split; [done|]. intros [? _]%Forall_cons. congruence.
Qed.

Lemma trim_start_split l :
  ∃ p, l = p ++ trim_start l ∧ Forall (λ c, is_white_space c = true) p.
Proof.
  induction l as [|c l (p & Hp & Hws)]; simpl; [by exists []|].
  destruct (is_white_space c) eqn:Hc.
  - exists (c :: p). split; [simpl; congruence|by constructor].
  - by exists [].
Qed.

Lemma trim_start_fixed l :
  trim_start l = l ↔ match l with [] => True | c :: _ => is_white_space c = false end.
Proof.
  destruct l as [|c l]; simpl; [done|].
  destruct (is_white_space c) eqn:Hc; [|done]. split; [|done].
  intros Heq. destruct (trim_start_split l) as (p & Hp & _).
  apply (f_equal length) in Heq. apply (f_equal length) in Hp.
  rewrite length_app in Hp. simpl in Heq. lia.
Qed.

Lemma trim_start_idem l : trim_start (trim_start l) = trim_start l.
Proof.
  induction l as [|c l IH]; simpl; [done|].
  destruct (is_white_space c) eqn:Hc; [done|]. simpl. by rewrite Hc.
Qed.

Lemma trimmed_chars s :
  list_ascii_of_string (trim s) =
  rev (trim_start (rev (trim_start (list_ascii_of_string s)))).
Proof. unfold trim. apply list_ascii_of_string_of_list_ascii. Qed.

(** X22: the strings that [on], [once] and [set] reject as names and keys
    are exactly those made of white space only, the empty string among
    them; a trimmed string neither starts nor ends with white space, and
    trimming it again changes nothing. *)
Theorem blank_is_all_white_space s :
  (blank s = true ↔
   Forall (λ c, is_white_space c = true) (list_ascii_of_string s)) ∧
  trim (trim s) = trim s ∧
  (∀ c, head (list_ascii_of_string (trim s)) = Some c ∨
        last (list_ascii_of_string (trim s)) = Some c →
        is_white_space c = false).
Proof.
  set (l := list_ascii_of_string s).
  set (m := trim_start l).
  set (t := rev (trim_start (rev m))).
  assert (list_ascii_of_string (trim s) = t) as Ht by apply trimmed_chars.
  assert (trim_start (rev t) = rev t) as Hend.
  { unfold t. rewrite rev_involutive. apply trim_start_idem. }
  assert (trim_start t = t) as Hstart.
  { destruct (trim_start_split (rev m)) as (p & Hp & Hws).
    assert (m = t ++ rev p) as Hm.
    { unfold t. rewrite <- rev_app_distr, <- Hp. by rewrite rev_involutive. }
    apply trim_start_fixed. destruct t as [|c t']; [done|].
    assert (trim_start m = m) as Hmm by apply trim_start_idem.
    apply trim_start_fixed in Hmm. by rewrite Hm in Hmm. }
  split_and!.
  - unfold blank. rewrite bool_decide_eq_true.
    rewrite <- (string_of_list_ascii_of_string (trim s)), Ht.
    assert (String.length (string_of_list_ascii t) = length t) as ->.
    { clear. induction t as [|c t IH]; simpl; [done|]. by rewrite IH. }
    rewrite length_zero_iff_nil. unfold t. fold l. split.
    + intros Hnil. apply (f_equal (@rev _)) in Hnil.
      rewrite rev_involutive in Hnil. simpl in Hnil.
      apply trim_start_nil in Hnil.
      apply trim_start_nil. fold m.
      destruct m as [|c m'] eqn:Em; [done|]. exfalso.
      assert (trim_start m = m) as Hmm by apply trim_start_idem.
      rewrite Em in Hmm. apply trim_start_fixed in Hmm.
      apply Forall_forall with (x := c) in Hnil; [congruence|].
      apply list_elem_of_In, in_rev. rewrite rev_involutive. by left.
    + intros Hws. apply trim_start_nil in Hws. fold m in Hws.
      by rewrite Hws.
  - unfold trim at 1. rewrite Ht, Hstart, Hend, rev_involutive.
    by rewrite <- Ht, string_of_list_ascii_of_string.
  - intros c. rewrite Ht. clearbody t. intros [Hh|Hl].
    + apply trim_start_fixed in Hstart. destruct t; simpl in *; by simplify_eq.
    + apply trim_start_fixed in Hend.
      assert (head (rev t) = Some c) as Hh.
      { clear -Hl. destruct t as [|x t] using rev_ind; [done|].
        rewrite last_snoc in Hl. rewrite rev_app_distr. simpl. congruence. }
      destruct (rev t); simpl in *; by simplify_eq.
Qed.

(** * Properties of the authentication manager *)

Section Auth.

Import AuthManager.

Variable body : nat → list Value → list Action.
Variable escribe : nat → list Value → Objeto → Objeto.

Lemma emit_pair ev datos b :
  EventBus.emit body (VStr ev) datos b =
  (Normal (), (EventBus.emit body (VStr ev) datos b).2).
Proof.
  pose proof (emit_returns body ev datos b) as H.
  destruct (EventBus.emit body (VStr ev) datos b) as [r b1]. simpl in *.
  by subst.
Qed.

Lemma emit_calls_nobody ev datos b :
  subscribers ev b = [] →
  calls_since b (EventBus.emit body (VStr ev) datos b).2 = [].
Proof.
  intros Hv. apply calls_since_app. rewrite app_nil_r.
  unfold subscribers in Hv. unfold EventBus.emit. simpl.
  destruct (EventBus.listeners b !! ev) as [s|] eqn:Hs; [|done]. simpl.
  by rewrite (forEach_no_subscriber body ev datos s).
Qed.

(** What [tras_emit] leaves of the session. *)
Lemma tras_emit_usuario entrega b b1 st :
  usuarioActual (tras_emit escribe entrega b b1 st) =
  match usuarioActual st with
  | Some (ref, o) =>
      Some (ref,
            if compartido st || (entrega && bool_decide (calls_since b b1 ≠ []))
            then escrituras escribe (calls_since b b1) o else o)
  | None => None
  end.
Proof.
  unfold tras_emit. destruct (usuarioActual st) as [[ref o]|] eqn:E; [|done].
  cbv zeta. by destruct (compartido st || _).
Qed.

Lemma tras_emit_rest entrega b b1 st :
  token (tras_emit escribe entrega b b1 st) = token st ∧
  pendientes (tras_emit escribe entrega b b1 st) = pendientes st ∧
  next_intento (tras_emit escribe entrega b b1 st) = next_intento st ∧
  ahora (tras_emit escribe entrega b b1 st) = ahora st.
Proof.
  unfold tras_emit. destruct (usuarioActual st) as [[ref o]|]; [|done].
  cbv zeta. by destruct (compartido st || _).
Qed.

Lemma tras_emit_compartido entrega b b1 st :
  compartido (tras_emit escribe entrega b b1 st) = false →
  tras_emit escribe entrega b b1 st = st.
Proof.
  unfold tras_emit. destruct (usuarioActual st) as [[ref o]|]; [|done].
  cbv zeta. by destruct (compartido st || _).
Qed.

(** What the timer of a [login] does once it is due. *)
Lemma resolver_due i it w :
  pendientes (auth w) !! i = Some it → vence it ≤ ahora (auth w) →
  let ok :=
    bool_decide (con_username it = VStr "admin")
    && bool_decide (con_password it = VStr "123") in
  let b1 :=
    if ok then
      (EventBus.emit body (VStr "auth:login") [VObj (next_obj (auth w))]
         (bus w)).2
    else
      (EventBus.emit body (VStr "auth:error") [VStr credenciales_invalidas]
         (bus w)).2 in
  (resolver body escribe i w).1 = Normal () ∧
  bus (resolver body escribe i w).2 = b1 ∧
  pendientes (auth (resolver body escribe i w).2)
    = delete i (pendientes (auth w)) ∧
  token (auth (resolver body escribe i w).2)
    = (if ok then Some (ahora (auth w)) else token (auth w)) ∧
  ahora (auth (resolver body escribe i w).2) = ahora (auth w) ∧
  usuarioActual (auth (resolver body escribe i w).2) =
    if ok then
      Some (next_obj (auth w),
            escrituras escribe (calls_since (bus w) b1)
              (nuevo_usuario (VStr "admin")))
    else
      (λ u, (u.1, if compartido (auth w)
                  then escrituras escribe (calls_since (bus w) b1) u.2
                  else u.2)) <$> usuarioActual (auth w).
Proof.
  intros Hi Hdue. cbv zeta. unfold resolver. rewrite Hi.
  rewrite bool_decide_true by done.
  destruct (bool_decide (con_username it = VStr "admin")) eqn:Hu;
    destruct (bool_decide (con_password it = VStr "123")) eqn:Hp;
    cbn [andb]; rewrite emit_pair; cbn [fst snd auth bus];
    rewrite tras_emit_usuario;
    match goal with
    | |- context [tras_emit escribe ?e ?b ?b1 ?st] =>
        destruct (tras_emit_rest e b b1 st) as (-> & -> & _ & ->)
    end;
    cbn [usuarioActual compartido token pendientes ahora orb andb];
    rewrite ?orb_false_r;
    (split_and!; [done..|]);
    try (by destruct (usuarioActual (auth w)) as [[ref o]|]).
  apply bool_decide_eq_true in Hu. rewrite Hu. clear Hp.
  case_bool_decide as Hc; [done|]. by rewrite Hc.
Qed.

(** X23: [login] only arms a timer: the session, the token and the bus are
    as before, and nothing comes of the attempt before 1000 ms have
    passed. *)
Theorem login_is_deferred u p d w :
  let w1 := login u p w in
  bus w1 = bus w ∧
  isAuthenticated w1 = isAuthenticated w ∧
  getUsuarioActual w1 = getUsuarioActual w ∧
  token (auth w1) = token (auth w) ∧
  (Z.of_nat d < 1000 →
   resolver body escribe (next_intento (auth w)) (pasar d w1)
     = (Normal (), pasar d w1)).
Proof.
  cbv zeta. split_and!; try done.
  intros Hd. unfold resolver. simpl. rewrite lookup_insert_eq. simpl.
  rewrite bool_decide_false by lia. done.
Qed.

(** X24: when the timer of a [login] runs, the credentials decide.  With
    exactly ["admin"] and ["123"] the session holds a new user object, a
    token is set and [auth:login] is emitted with that object; what
    [getUsuarioActual] then returns is
    [{id: 1, username: "admin", role: "admin"}] as the subscribers of
    [auth:login] that were called have left it, so exactly that when
    there is no such subscriber.  With anything else [auth:error] is
    emitted with the message and the session is left as it was: the same
    user object, if any, and the same token; a failed attempt does not
    end a session. *)
Theorem login_outcome u p w :
  let i := next_intento (auth w) in
  let w1 := pasar 1000 (login u p w) in
  let r := resolver body escribe i w1 in
  r.1 = Normal () ∧
  pendientes (auth r.2) !! i = None ∧
  if decide (u = VStr "admin" ∧ p = VStr "123") then
    isAuthenticated r.2 = true ∧
    getUsuarioActual r.2 =
      Some (escrituras escribe (calls_since (bus w) (bus r.2))
              (nuevo_usuario (VStr "admin"))) ∧
    (subscribers "auth:login" (bus w) = [] →
     getUsuarioActual r.2 = Some (nuevo_usuario (VStr "admin"))) ∧
    token (auth r.2) = Some (ahora (auth w) + 1000) ∧
    EventBus.emitted (bus r.2) =
      EventBus.emitted (bus w)
        ++ [("auth:login"%string, [VObj (next_obj (auth w))])]
  else
    isAuthenticated r.2 = isAuthenticated w ∧
    fst <$> usuarioActual (auth r.2) = fst <$> usuarioActual (auth w) ∧
    (compartido (auth w) = false →
     getUsuarioActual r.2 = getUsuarioActual w) ∧
    token (auth r.2) = token (auth w) ∧
    EventBus.emitted (bus r.2) =
      EventBus.emitted (bus w)
        ++ [("auth:error"%string, [VStr credenciales_invalidas])].
Proof.
  intros i w1 r.
  assert (pendientes (auth w1) !! i
          = Some (mkIntento (ahora (auth w) + 1000) u p)) as Hi
    by (simpl; apply lookup_insert_eq).
  destruct (resolver_due i _ w1 Hi) as (Hr & Hbus & Hpend & Htok & _ & Hu);
    [simpl; lia|].
  fold r in Hr, Hbus, Hpend, Htok, Hu.
  cbn [con_username con_password] in Hbus, Htok, Hu.
  change (bus w1) with (bus w) in Hbus, Hu.
  change (next_obj (auth w1)) with (next_obj (auth w)) in Hbus, Hu.
  change (usuarioActual (auth w1)) with (usuarioActual (auth w)) in Hu.
  change (compartido (auth w1)) with (compartido (auth w)) in Hu.
  change (token (auth w1)) with (token (auth w)) in Htok.
  change (ahora (auth w1)) with (ahora (auth w) + 1000) in Htok.
  unfold isAuthenticated, getUsuarioActual.
  split_and!; [done|rewrite Hpend; apply lookup_delete_eq|].
  destruct (decide (u = VStr "admin" ∧ p = VStr "123")) as [Hcred|Hcred].
  - destruct Hcred as [Hcu Hcp].
    rewrite !bool_decide_true in Hbus, Htok, Hu by done.
    cbn [andb] in Hbus, Htok, Hu. rewrite Hu, Htok, Hbus.
    split_and!.
    + apply bool_decide_eq_true. by eexists.
    + done.
    + intros Hnone. cbn [fmap option_fmap option_map snd]. f_equal.
      by rewrite emit_calls_nobody.
    + done.
    + apply emit_emitted.
  - assert (bool_decide (u = VStr "admin") && bool_decide (p = VStr "123")
            = false) as Hno.
    { apply andb_false_iff.
      destruct (decide (u = VStr "admin")) as [->|Hu'];
        [right|left]; apply bool_decide_eq_false; [|done].
      intros ->. by apply Hcred. }
    rewrite Hno in Hbus, Htok, Hu. rewrite Hu, Htok, Hbus.
    split_and!.
    + destruct (usuarioActual (auth w)) as [[ref o]|]; [|done].
      apply bool_decide_ext. split; intros _; by eexists.
    + by destruct (usuarioActual (auth w)) as [[ref o]|].
    + intros Hc. rewrite Hc.
      by destruct (usuarioActual (auth w)) as [[ref o]|].
    + done.
    + apply emit_emitted.
Qed.

(** X25: [logout] ends the session and emits [auth:logout] without
    arguments, whether or not anybody was logged in; it cancels no pending
    [login]: an attempt with good credentials that resolves after the
    [logout] opens the session again. *)
Theorem logout_does_not_cancel_a_login w :
  let w1 := (logout body w).2 in
  (logout body w).1 = Normal () ∧
  isAuthenticated w1 = false ∧ getUsuarioActual w1 = None ∧
  token (auth w1) = None ∧
  pendientes (auth w1) = pendientes (auth w) ∧
  EventBus.emitted (bus w1) =
    EventBus.emitted (bus w) ++ [("auth:logout"%string, [])] ∧
  let w2 := (logout body (login (VStr "admin") (VStr "123") w)).2 in
  let w3 :=
    (resolver body escribe (next_intento (auth w)) (pasar 1000 w2)).2 in
  isAuthenticated w3 = true.
Proof.
  cbv zeta. unfold logout. rewrite emit_pair. cbn [fst snd auth bus].
  rewrite emit_emitted. split_and!; try done.
  rewrite emit_pair. cbn [fst snd]. unfold resolver.
  cbn [auth pasar login pendientes ahora].
  rewrite lookup_insert_eq. cbn [vence con_username con_password].
  rewrite bool_decide_true by lia. rewrite !bool_decide_true by done.
  cbn [andb]. rewrite emit_pair. cbn [snd].
  unfold isAuthenticated. cbn [auth]. rewrite tras_emit_usuario.
  cbn [usuarioActual]. apply bool_decide_eq_true. by eexists.
Qed.

Lemma tras_emit_session entrega b b1 b' st :
  session_ok (mkWorld b st) →
  session_ok (mkWorld b' (tras_emit escribe entrega b b1 st)).
Proof.
  intros (Hiff & Htok & Huser).
  destruct (tras_emit_rest entrega b b1 st) as (Et & _ & _ & Ea).
  split_and!; cbn [auth] in *.
  - rewrite Et, tras_emit_usuario, <- Hiff.
    by destruct (usuarioActual st) as [[ref o]|].
  - rewrite Et, Ea. apply Htok.
  - intros Hc. rewrite (tras_emit_compartido _ _ _ _ Hc) in Hc |- *.
    by apply Huser.
Qed.

Lemma step_session w o :
  session_ok w → session_ok (step body escribe w o).
Proof.
  intros Hok. pose proof Hok as (Hiff & Htok & Huser).
  destruct o as [u p| |i|d|evento datos|f| | | | |]; cbn [step];
    try exact Hok.
  - unfold logout. rewrite emit_pair. cbn [snd]. by split_and!.
  - unfold resolver. destruct (pendientes (auth w) !! i) as [it|]; [|done].
    case_bool_decide; [|done].
    destruct (bool_decide (con_username it = VStr "admin")) eqn:Hu;
      destruct (bool_decide (con_password it = VStr "123")) eqn:Hp;
      cbn [andb]; rewrite emit_pair; cbn [snd];
      apply tras_emit_session; try (by split_and!).
    apply bool_decide_eq_true in Hu. rewrite Hu.
    split_and!; cbn [auth usuarioActual token ahora compartido].
    + done.
    + intros t [= <-]. lia.
    + intros _ u'. unfold getUsuarioActual. simpl. by intros [= <-].
  - split_and!; cbn [auth pasar]; [done| |done].
    intros t Ht. specialize (Htok t Ht). simpl. lia.
  - unfold emitir.
    destruct (EventBus.emit body evento datos (bus w)) as [r b1].
    apply tras_emit_session. by destruct w.
  - unfold escribir.
    destruct (usuarioActual (auth w)) as [[ref o]|] eqn:E; [|done].
    destruct (compartido (auth w)) eqn:Ec; [|done].
    split_and!; cbn [auth with_usuario usuarioActual token ahora compartido].
    + split; [done|]. intros Ht. apply Hiff in Ht. congruence.
    + done.
    + done.
Qed.

Lemma run_session ops w :
  session_ok w → session_ok (run body escribe ops w).
Proof.
  revert w. induction ops as [|o ops IH]; intros w Hok; [done|].
  simpl. by apply IH, step_session.
Qed.

(** X26: in every execution the token is set exactly when a user is and
    it never lies in the future; and as long as no client function has
    received the user object, the user that [getUsuarioActual] returns is
    [{id: 1, username: "admin", role: "admin"}]. *)
Theorem session_is_admin_or_nobody t0 ops :
  let w := run body escribe ops (initial t0) in
  (isAuthenticated w = true ↔ is_Some (token (auth w))) ∧
  (∀ t, token (auth w) = Some t → t ≤ ahora (auth w)) ∧
  (compartido (auth w) = false →
   ∀ u, getUsuarioActual w = Some u → u = nuevo_usuario (VStr "admin")).
Proof.
  cbv zeta.
  destruct (run_session ops (initial t0)) as (Hiff & Htok & Huser);
    [by split_and!|].
  split_and!; [|done..].
  unfold isAuthenticated. rewrite bool_decide_eq_true.
  rewrite <- !not_eq_None_Some. by rewrite Hiff.
Qed.

End Auth.

(** * The further properties at concrete inputs *)

Section BusInstances.

Import EventBus.

Lemma on_and_once_validate_alike_witness :
  on (VStr "  ") (VNum 3) once_then_on = (Throw ErrNombreEvento, once_then_on) ∧
  once (VStr "  ") (VNum 3) once_then_on
    = (Throw ErrNombreEvento, once_then_on).
Proof.
  destruct (on_and_once_validate_alike (VStr "  ") (VNum 3) once_then_on)
    as (H & _ & _).
  apply H. simpl. intros Hv. vm_compute in Hv. discriminate.
Defined.

Lemma on_subscribes_last_witness :
  let b1 := (on (VStr "e") (VFun (UserFn 2)) once_then_on).2 in
  subscribers "e" b1 = subscribers "e" once_then_on ++ [UserFn 2] ∧
  (∀ ev', ev' ≠ "e"%string →
          listeners b1 !! ev' = listeners once_then_on !! ev') ∧
  debug b1 !! "e"%string = Some (S (length (subscribers "e" once_then_on))).
Proof.
  apply (on_subscribes_last "e" (UserFn 2) once_then_on).
  - reflexivity.
  - vm_compute. intros H. repeat (apply elem_of_cons in H as [H|H]; [discriminate|]).
    by apply elem_of_nil in H.
Defined.

Lemma off_removes_only_that_function_witness :
  subscribers "e" (off (VStr "e") (VFun (UserFn 1)) once_then_on) =
    filter (λ x, x ≠ UserFn 1) (subscribers "e" once_then_on) ∧
  remover (mkRemover "e" (UserFn 1)) once_then_on =
    (Normal (), off (VStr "e") (VFun (UserFn 1)) once_then_on).
Proof.
  destruct (off_removes_only_that_function
              (VStr "e") (VFun (UserFn 1)) once_then_on) as [_ H].
  destruct (H "e"%string (UserFn 1) eq_refl eq_refl) as (_ & _ & H').
  apply (H' [Some (OnceFn 0 "e" (UserFn 0)); Some (UserFn 1)]).
  - reflexivity.
  - apply (bool_decide_unpack _). vm_compute. exact I.
Defined.

Lemma on_then_off_round_trip_witness :
  let b1 := (on (VStr "e") (VFun (UserFn 2)) once_then_on).2 in
  let b2 := off (VStr "e") (VFun (UserFn 2)) b1 in
  (∀ r, (on (VStr "e") (VFun (UserFn 2)) once_then_on).1 = Normal r →
        remover r b1 = (Normal (), b2)) ∧
  (∀ ev', subscribers ev' b2 = subscribers ev' once_then_on) ∧
  debug b2 !! "e"%string = Some (length (subscribers "e" once_then_on)).
Proof.
  apply (on_then_off_round_trip "e" (UserFn 2) once_then_on).
  - reflexivity.
  - vm_compute. intros H. repeat (apply elem_of_cons in H as [H|H]; [discriminate|]).
    by apply elem_of_nil in H.
  - intros s Hs. vm_compute in Hs. injection Hs as <-.
    apply (bool_decide_unpack _). vm_compute. exact I.
Defined.

Lemma emit_edge_cases_witness :
  emit first_throws (VNum 7) [] once_then_on
    = (Throw ErrNombreEventoEmit, once_then_on) ∧
  let b' := (emit first_throws (VStr "otro") [] once_then_on).2 in
  listeners b' = listeners once_then_on ∧ calls b' = calls once_then_on ∧
  dispatched b' = dispatched once_then_on ∧
  console_error b' = console_error once_then_on.
Proof.
  destruct (emit_edge_cases first_throws (VNum 7) [] once_then_on) as [H _].
  destruct (emit_edge_cases first_throws (VStr "otro") [] once_then_on)
    as [_ H'].
  split; [by apply H|].
  destruct (H' "otro"%string eq_refl) as [_ H'']. apply H''. reflexivity.
Defined.

Lemma clear_forgets_every_subscription_witness :
  subscribers "e" (on (VStr "e") (VFun (UserFn 5)) (clear once_then_on)).2
    = [UserFn 5].
Proof.
  destruct (clear_forgets_every_subscription
              idle "e" [] (UserFn 5) once_then_on) as (_ & _ & _ & H).
  apply H. reflexivity.
Defined.

Lemma off_does_not_cancel_once_witness :
  let b1 := (once (VStr "e") (VFun (UserFn 0)) EventBus.initial).2 in
  let b2 := off (VStr "e") (VFun (UserFn 0)) b1 in
  OnceFn 0 "e" (UserFn 0) ∈ subscribers "e" b2 ∧
  calls_since b2 (emit idle (VStr "e") [VNum 1] b2).2 = [(0%nat, [VNum 1])].
Proof.
  destruct (off_does_not_cancel_once idle "e" (UserFn 0) EventBus.initial)
    as (_ & H2 & _ & H4); [reflexivity|].
  split; [exact H2|]. apply (H4 [VNum 1]); [reflexivity|constructor].
Defined.

Lemma registry_is_well_formed_witness :
  bus_ok
    (bus (run first_throws
            [OOnce (VStr "e") (VFun (UserFn 0));
             OOn (VStr "e") (VFun (UserFn 0));
             OEmit (VStr "e") []; OOff (VStr "e") (VFun (UserFn 0))]
            (CacheManager.initial 0))).
Proof.
  apply (registry_is_well_formed first_throws 0). repeat constructor.
Defined.

Lemma once_twice_subscribes_two_wrappers_witness :
  let b2 :=
    (once (VStr "e") (VFun (UserFn 0))
       (once (VStr "e") (VFun (UserFn 0)) EventBus.initial).2).2 in
  subscribers "e" b2 =
    subscribers "e" EventBus.initial
      ++ [OnceFn 0 "e" (UserFn 0); OnceFn 1 "e" (UserFn 0)] ∧
  (∀ datos,
     (∀ x, x ∈ subscribers "e" b2 → self_contained idle "e" datos x) →
     calls_since b2 (emit idle (VStr "e") datos b2).2 =
       ((λ x, (target x, datos)) <$> subscribers "e" EventBus.initial)
       ++ [(target (UserFn 0), datos); (target (UserFn 0), datos)]).
Proof.
  apply (once_twice_subscribes_two_wrappers idle "e" (UserFn 0)
           EventBus.initial).
  - split; intros ev s; simpl; by rewrite lookup_empty.
  - reflexivity.
Defined.

End BusInstances.

Lemma set_then_get_round_trip_witness :
  let w1 := (set (VStr "k") (VStr "v") (VNum 5) two_hit_listeners).2 in
  let w2 :=
    (set (VStr "k") (VStr "v") (VNum 5)
       (set (VStr "k") (VNum 9) VUndefined two_hit_listeners).2).2 in
  is_hit (VStr "v") (VStr "k") w1 (get first_throws (VStr "k") w1) ∧
  is_hit (VStr "v") (VStr "k") w2 (get first_throws (VStr "k") w2).
Proof.
  apply (set_then_get_round_trip first_throws "k" (VStr "v") (VNum 9)
           (VNum 5) VUndefined two_hit_listeners).
  reflexivity.
Defined.

Lemma set_is_silent_and_local_witness :
  let w := (set (VStr "a") (VStr "v") (VNum 5) (initial 0)).2 in
  let w1 := (set (VStr "b") (VStr "v") (VNum 7) w).2 in
  timers (store w) !! 0%nat = Some (mkTimer 5 "a") ∧
  timers (store w1) !! 0%nat = Some (mkTimer 5 "a").
Proof.
  destruct (set_is_silent_and_local idle (VStr "b") (VStr "v") (VNum 7)
              (set (VStr "a") (VStr "v") (VNum 5) (initial 0)).2)
    as (_ & _ & _ & _ & H).
  split; [reflexivity|].
  apply (H (ex_intro _ 0
              (ex_intro _ [OSet (VStr "a") (VStr "v") (VNum 5)]
                 (conj (Z.le_refl 0) eq_refl)))
           0%nat (mkTimer 5 "a")).
  - reflexivity.
  - discriminate.
Defined.

Lemma del_forgets_the_key_witness :
  let w :=
    (set (VStr "b") (VStr "v") (VNum 7)
       (set (VStr "a") (VStr "v") (VNum 5) (initial 0)).2).2 in
  let w1 := (del (VStr "a") w).2 in
  timers (store w1) !! 1%nat = Some (mkTimer 7 "b") ∧
  clave_of (mkTimer 7 "b") ≠ "a"%string.
Proof.
  destruct (del_forgets_the_key idle "a"
              (set (VStr "b") (VStr "v") (VNum 7)
                 (set (VStr "a") (VStr "v") (VNum 5) (initial 0)).2).2)
    as (_ & _ & _ & _ & H).
  split; [reflexivity|].
  apply (H (ex_intro _ 0
              (ex_intro _ [OSet (VStr "a") (VStr "v") (VNum 5);
                           OSet (VStr "b") (VStr "v") (VNum 7)]
                 (conj (Z.le_refl 0) eq_refl)))
           1%nat (mkTimer 7 "b")).
  reflexivity.
Defined.

Lemma cache_clear_empties_the_store_witness :
  let w := (set (VStr "a") (VStr "v") (VNum 5) (initial 0)).2 in
  let w1 := clear w in
  cache (store w1) = ∅ ∧ timers (store w1) = ∅ ∧
  debug w1 = mkDebugInfo 0 (mkStats 0 0) [] ∧
  bus w1 = bus w ∧ clock (store w1) = clock (store w) ∧
  ∀ clave, is_miss clave w1 (get idle clave w1).
Proof.
  apply (cache_clear_empties_the_store idle
           (set (VStr "a") (VStr "v") (VNum 5) (initial 0)).2).
  exists 0, [OSet (VStr "a") (VStr "v") (VNum 5)].
  split; [lia|reflexivity].
Defined.

Lemma expired_entry_stays_until_reaped_witness :
  let w1 := (set (VStr "b") (VStr "v2") (VNum 100) (initial 0)).2 in
  let w2 := tick 150 w1 in
  let w3 := (get idle (VStr "b") w2).2 in
  "b"%string ∈ keys (debug w2) ∧
  is_miss (VStr "b") w2 (get idle (VStr "b") w2) ∧
  ("b"%string ∉ keys (debug w3)) ∧
  timers (store w3) !! next_timer (store (initial 0)) = None.
Proof.
  apply (expired_entry_stays_until_reaped idle "b" (VStr "v2") 100 150
           (initial 0)).
  - reflexivity.
  - simpl. lia.
  - lia.
Defined.



Lemma gets_are_counted_witness :
  let ops :=
    [OSet (VStr "a") (VStr "v1") (VNum 0); OGet (VStr "a");
     ODel (VStr "a"); OGet (VStr "a"); ODel (VStr "a")] in
  let s := stats (store (initial 0)) in
  let s' := stats (store (run idle ops (initial 0))) in
  (hits s' + misses s' =
     hits s + misses s + length (filter (λ o, is_get o) ops))%nat ∧
  (hits s ≤ hits s')%nat ∧ (misses s ≤ misses s')%nat.
Proof.
  apply (gets_are_counted idle). repeat constructor; discriminate.
Defined.


Lemma non_string_keys_are_never_stored_witness :
  set (VNum 3) (VStr "v") (VNum 0) two_hit_listeners
    = (Throw ErrClave, two_hit_listeners) ∧
  is_miss (VNum 3) two_hit_listeners
    (get idle (VNum 3) two_hit_listeners) ∧
  cache (store (get idle (VNum 3) two_hit_listeners).2)
    = cache (store two_hit_listeners) ∧
  del (VNum 3) two_hit_listeners = (false, two_hit_listeners).
Proof.
  apply (non_string_keys_are_never_stored idle (VNum 3) (VStr "v") (VNum 0)
           two_hit_listeners).
  discriminate.
Defined.

Lemma blank_is_all_white_space_witness :
  is_white_space "a" = false.
Proof.
  destruct (blank_is_all_white_space "  a b ") as (_ & _ & H).
  apply H. left. reflexivity.
Defined.

Section AuthInstances.

Import AuthManager.

Lemma login_is_deferred_witness :
  resolver idle cambia_role (next_intento (auth (AuthManager.initial 0)))
    (pasar 999 (login (VStr "admin") (VStr "123") (AuthManager.initial 0)))
  = (Normal (),
     pasar 999 (login (VStr "admin") (VStr "123") (AuthManager.initial 0))).
Proof.
  destruct (login_is_deferred idle cambia_role (VStr "admin") (VStr "123")
              999 (AuthManager.initial 0)) as (_ & _ & _ & _ & H).
  apply H. lia.
Defined.

Lemma login_outcome_witness :
  let r :=
    resolver idle cambia_role 0
      (pasar 1000
         (login (VStr "admin") (VStr "123") (AuthManager.initial 0))) in
  let r' :=
    resolver idle cambia_role 0
      (pasar 1000 (login (VStr "admin") (VStr "123") con_suscriptor)) in
  getUsuarioActual r.2 = Some (nuevo_usuario (VStr "admin")) ∧
  getUsuarioActual r'.2
    = Some (<["role" := VStr "root"]> (nuevo_usuario (VStr "admin"))).
Proof.
  split.
  - pose proof (login_outcome idle cambia_role (VStr "admin") (VStr "123")
                  (AuthManager.initial 0)) as H.
    cbv zeta in H. destruct H as (_ & _ & H).
    rewrite decide_True in H by (split; reflexivity).
    destruct H as (_ & _ & H & _). apply H. reflexivity.
  - pose proof (login_outcome idle cambia_role (VStr "admin") (VStr "123")
                  con_suscriptor) as H.
    cbv zeta in H. destruct H as (_ & _ & H).
    rewrite decide_True in H by (split; reflexivity).
    destruct H as (_ & H & _). exact H.
Defined.

Lemma session_is_admin_or_nobody_witness :
  let w :=
    AuthManager.run idle cambia_role
      [OLogin (VStr "admin") (VStr "123"); OPasar 1000; OResolver 0]
      (AuthManager.initial 0) in
  (isAuthenticated w = true ↔ is_Some (token (auth w))) ∧
  getUsuarioActual w = Some (nuevo_usuario (VStr "admin")).
Proof.
  destruct (session_is_admin_or_nobody idle cambia_role 0
              [OLogin (VStr "admin") (VStr "123"); OPasar 1000; OResolver 0])
    as (H & _ & Hu).
  split; [exact H|]. cbv zeta in Hu.
  destruct (getUsuarioActual _) as [u|] eqn:E; [|discriminate E].
  f_equal. apply Hu; reflexivity.
Defined.

End AuthInstances.

Section MoreBusInstances.

Import EventBus.

Lemma emit_logs_each_thrown_error_witness :
  let b := bus two_hit_listeners in
  let datos := [VStr "k"; VStr "v"] in
  let b' := (emit first_throws (VStr "cache:hit") datos b).2 in
  console_error b' =
    console_error b ++
    ((λ _, ("cache:hit"%string, Thrown)) <$>
       filter (throws first_throws datos)
         (JSSet.values [Some (UserFn 0); Some (UserFn 1)])) ∧
  listeners b' !! "cache:hit"%string
    = Some [Some (UserFn 0); Some (UserFn 1)].
Proof.
  apply (emit_logs_each_thrown_error first_throws "cache:hit"
           [VStr "k"; VStr "v"] (bus two_hit_listeners)
           [Some (UserFn 0); Some (UserFn 1)]).
  - reflexivity.
  - intros cb Hcb. simpl in Hcb.
    repeat (apply elem_of_cons in Hcb as [->|Hcb]); simpl;
      [repeat constructor..|by apply elem_of_nil in Hcb].
Defined.

Lemma remover_is_idempotent_while_the_event_is_known_witness :
  let r := mkRemover "e" (UserFn 2) in
  let b1 := (on (VStr "e") (VFun (UserFn 2)) once_then_on).2 in
  let a1 := remover r b1 in
  a1.1 = Normal () ∧
  (UserFn 2 ∉ subscribers "e" (a1.2)) ∧
  (∀ x, x ≠ UserFn 2 →
        (x ∈ subscribers "e" (a1.2) ↔ x ∈ subscribers "e" once_then_on)) ∧
  (∀ ev', ev' ≠ "e"%string →
          listeners (a1.2) !! ev' = listeners once_then_on !! ev') ∧
  remover r (a1.2) = (Normal (), a1.2).
Proof.
  apply (remover_is_idempotent_while_the_event_is_known
           "e" (UserFn 2) once_then_on).
  - intros s Hs. vm_compute in Hs. injection Hs as <-.
    apply (bool_decide_unpack _). vm_compute. exact I.
  - reflexivity.
Defined.

Lemma once_runs_a_returning_function_once_witness :
  let b1 := (once (VStr "e") (VFun (UserFn 1)) EventBus.initial).2 in
  let b2 := (emit first_throws (VStr "e") [VNum 1] b1).2 in
  let b3 := (emit first_throws (VStr "e") [VNum 2] b2).2 in
  calls_since EventBus.initial b3 = [(1%nat, [VNum 1])] ∧
  subscribers "e" b2 = [] ∧ subscribers "e" b3 = [].
Proof.
  apply (once_runs_a_returning_function_once first_throws "e" 1
           EventBus.initial [VNum 1] [VNum 2]).
  - reflexivity.
  - reflexivity.
  - constructor.
  - constructor.
Defined.

End MoreBusInstances.
